(** * uvicoord: port allocation and instance registry

    A shallow embedding of [uvicoord/models.py] and
    [uvicoord/service/port_manager.py].

    Python [int] is unbounded and is modelled as [Z]; [str] as [string];
    [dict] as stdpp's [gmap] (iteration order is not modelled); [Optional]
    as [option].  Calls into the operating system ([psutil.pid_exists],
    the loopback [bind] probe), [uuid.uuid4] and [datetime.now] are
    answered by an explicit [world] that every call receives. *)

From stdpp Require Import gmap strings list fin_maps fin_sets.
From Stdlib Require Import ZArith Lia Ascii.

Set Warnings "-register-all".

Local Open Scope string_scope.
Local Open Scope Z_scope.

(** ** models.py *)

Module Models.

(** [class PortStrategy(str, Enum)] *)
Inductive PortStrategy := DEDICATED | RANGE | LIST | STEPPED | ANY.

#[global] Instance PortStrategy_eq_dec : EqDecision PortStrategy.
Proof. solve_decision. Defined.

(** [PortStrategy.value] *)
Definition strategy_value (s : PortStrategy) : string :=
  match s with
  | DEDICATED => "dedicated"
  | RANGE => "range"
  | LIST => "list"
  | STEPPED => "stepped"
  | ANY => "any"
  end.

(** [PortStrategy(value)]: [None] stands for the [ValueError] of an
    unknown value. *)
Definition strategy_of_value (v : string) : option PortStrategy :=
  if decide (v = "dedicated") then Some DEDICATED
  else if decide (v = "range") then Some RANGE
  else if decide (v = "list") then Some LIST
  else if decide (v = "stepped") then Some STEPPED
  else if decide (v = "any") then Some ANY
  else None.

(** [class SteppedPortConfig(BaseModel)] *)
Record SteppedPortConfig := mkStepped {
  start : Z;
  step : Z;
  count : Z
}.

(** [class AppConfig(BaseModel)] *)
Record AppConfig := mkApp {
  name : string;
  path : string;
  command : string;
  port_strategy : PortStrategy;
  port : option Z;
  port_range : option (Z * Z);
  ports : option (list Z);
  port_step : option SteppedPortConfig
}.

(** [class ActiveInstance(BaseModel)]; its [port] field is [inst_port]
    here, [port] being the field of [AppConfig]. *)
Record ActiveInstance := mkInstance {
  app_name : string;
  instance_id : string;
  inst_port : Z;
  pid : Z;
  started_at : string
}.

(** [class CoordinatorConfig(BaseModel)] *)
Record CoordinatorConfig := mkConfig {
  coordinator_port : Z;
  default_port_range : Z * Z;
  apps : gmap string AppConfig
}.

#[global] Instance SteppedPortConfig_eq_dec : EqDecision SteppedPortConfig.
Proof. solve_decision. Defined.
#[global] Instance AppConfig_eq_dec : EqDecision AppConfig.
Proof. solve_decision. Defined.
#[global] Instance ActiveInstance_eq_dec : EqDecision ActiveInstance.
Proof. solve_decision. Defined.

(** [CoordinatorConfig()] with the field defaults. *)
Definition default_config : CoordinatorConfig :=
  mkConfig 9000 (8100, 8199) ∅.

(** Python's [list(range(lo, hi))]: empty when [hi <= lo]. *)
Definition range (lo hi : Z) : list Z := seqZ lo (hi - lo).

(** [AppConfig.get_available_ports].  The conditions are Python truth
    tests: an [int] is false when it is [None] or [0], a list when it is
    [None] or empty; a 2-tuple and a model object are always true. *)
Definition get_available_ports (self : AppConfig) : list Z :=
  match port_strategy self with
  | DEDICATED =>
      match port self with
      | Some p => if decide (p = 0) then [] else [p]
      | None => []
      end
  | RANGE =>
      match port_range self with
      | Some (a, b) => range a (b + 1)
      | None => []
      end
  | LIST =>
      match ports self with
      | Some l => l
      | None => []
      end
  | STEPPED =>
      match port_step self with
      | Some ps => (λ i, start ps + i * step ps) <$> range 0 (count ps)
      | None => []
      end
  | ANY => []
  end.

(** The [Field(...)] constraints pydantic checks when a model is built. *)
Definition port_field_ok (p : Z) : Prop := 1024 ≤ p ≤ 65535.

Definition stepped_ok (ps : SteppedPortConfig) : Prop :=
  1024 ≤ start ps ≤ 65535 ∧ 1 ≤ step ps ∧ 1 ≤ count ps.

Definition app_fields_ok (a : AppConfig) : Prop :=
  from_option port_field_ok True (port a) ∧
  from_option stepped_ok True (port_step a).

#[global] Instance port_field_ok_dec p : Decision (port_field_ok p).
Proof. unfold port_field_ok. apply _. Defined.
#[global] Instance stepped_ok_dec ps : Decision (stepped_ok ps).
Proof. unfold stepped_ok. apply _. Defined.
#[global] Instance app_fields_ok_dec a : Decision (app_fields_ok a).
Proof.
  unfold app_fields_ok.
  destruct (port a), (port_step a); simpl; apply _.
Defined.

End Models.
Export Models.

(** ** service/port_manager.py *)

Module Service.

(** *** The environment of a call *)

(** What [s.bind(("127.0.0.1", port))] does: it returns, raises [OSError],
    or raises something else (CPython raises [OverflowError] for a port
    outside 0..65535), which [is_port_available] does not catch. *)
Inductive bind_outcome := Bound | BindOSError | BindOtherError.

(** What [psutil.pid_exists(pid)] does: it returns [True] or [False], or
    it raises (psutil raises [OverflowError] for a pid of 2**31 or more);
    port_manager.py catches nothing around it. *)
Inductive pid_outcome := Alive | Dead | PidOverflow.

(** The answers the outside gives during one call.  [pid_exists] is
    [psutil.pid_exists], [uuid8] is [str(uuid.uuid4())[:8]] and [now] is
    [datetime.now(timezone.utc).isoformat()].  Within one call the answer
    for a pid or a port does not change; from one call to the next the
    world may be any other. *)
Record world := mkWorld {
  pid_exists : Z → pid_outcome;
  bind : Z → bind_outcome;
  uuid8 : string;
  now : string
}.

(** The exceptions: the [ValueError] of [allocate_port], what escapes
    the bind probe, what escapes [psutil.pid_exists], and what
    [_load_config] raises. *)
Inductive exn :=
  | ValueError (msg : string)
  | BindError
  | PidError
  | ConfigError.

Inductive result (A : Type) :=
  | Return (a : A)
  | Raise (e : exn).
Arguments Return {A} a.
Arguments Raise {A} e.

(** *** The configuration document

    [json.dump] followed by [json.load] gives back the value that was
    written, so the file at [self.config_path] is modelled by the JSON
    value it holds; objects are finite maps.  Only the JSON shapes that
    [_save_config] writes are represented. *)
Inductive json :=
  | JNull
  | JInt (z : Z)
  | JStr (s : string)
  | JList (l : list json)
  | JObj (m : gmap string json).

(** The object and the file at [self.config_path] ([None]: no file). *)
Record PortManager := mkPortManager {
  config : CoordinatorConfig;
  active_instances : gmap string ActiveInstance;
  config_file : option json
}.

Definition set_config (c : CoordinatorConfig) (self : PortManager) :=
  mkPortManager c (active_instances self) (config_file self).
Definition set_active (m : gmap string ActiveInstance) (self : PortManager) :=
  mkPortManager (config self) m (config_file self).
Definition set_file (f : option json) (self : PortManager) :=
  mkPortManager (config self) (active_instances self) f.

(** *** _save_config *)

(** The [app_data] dictionary of one application. *)
Definition app_document (app : AppConfig) : json :=
  let app_data : gmap string json :=
    <["port_strategy" := JStr (strategy_value (port_strategy app))]>
      (<["command" := JStr (command app)]>
        (<["path" := JStr (path app)]> ∅)) in
  let app_data :=
    match port app with
    | Some p => <["port" := JInt p]> app_data
    | None => app_data
    end in
  let app_data :=
    match port_range app with
    | Some (a, b) => <["port_range" := JList [JInt a; JInt b]]> app_data
    | None => app_data
    end in
  let app_data :=
    match ports app with
    | Some l => <["ports" := JList (JInt <$> l)]> app_data
    | None => app_data
    end in
  let app_data :=
    match port_step app with
    | Some ps =>
        <["port_step" :=
            JObj (<["count" := JInt (count ps)]>
                   (<["step" := JInt (step ps)]>
                     (<["start" := JInt (start ps)]> ∅)))]> app_data
    | None => app_data
    end in
  JObj app_data.

(** The [data] dictionary: the applications are stored under their
    dictionary key, the [name] field is not written. *)
Definition config_document (cfg : CoordinatorConfig) : json :=
  JObj (<["apps" := JObj (app_document <$> apps cfg)]>
         (<["default_port_range" :=
              JList [JInt (default_port_range cfg).1;
                     JInt (default_port_range cfg).2]]>
           (<["coordinator_port" := JInt (coordinator_port cfg)]> ∅))).

Definition _save_config (cfg : CoordinatorConfig) (self : PortManager)
  : PortManager :=
  set_file (Some (config_document cfg)) self.

(** *** _load_config

    [None] stands for the exception raised by the dictionary access or
    by pydantic's validation.  Pydantic's coercions of other JSON types
    (numeric strings, floats, booleans) are not represented. *)
Definition as_int (j : json) : option Z :=
  match j with JInt z => Some z | _ => None end.

Definition as_str (j : json) : option string :=
  match j with JStr s => Some s | _ => None end.

Definition as_int_list (j : json) : option (list Z) :=
  match j with JList l => mapM as_int l | _ => None end.

Definition as_int_pair (j : json) : option (Z * Z) :=
  match j with JList [JInt a; JInt b] => Some (a, b) | _ => None end.

(** A field with a default: the default when the key is absent. *)
Definition field_default {A} (m : gmap string json) (k : string)
    (parse : json → option A) (d : A) : option A :=
  match m !! k with
  | None => Some d
  | Some j => parse j
  end.

(** An [Optional[...] = None] field. *)
Definition field_optional {A} (m : gmap string json) (k : string)
    (parse : json → option A) : option (option A) :=
  match m !! k with
  | None | Some JNull => Some None
  | Some j => Some <$> parse j
  end.

Definition checked {A} (P : A → Prop) `{∀ x, Decision (P x)} (x : A)
  : option A :=
  if decide (P x) then Some x else None.

(** The [SteppedPortConfig] built from the dictionary [d]. *)
Definition parse_stepped (j : json) : option SteppedPortConfig :=
  match j with
  | JObj d =>
      s ← d !! "start" ≫= as_int;
      st ← field_default d "step" as_int 1;
      c ← field_default d "count" as_int 10;
      checked stepped_ok (mkStepped s st c)
  | _ => None
  end.

(** The [AppConfig] built from [app_data] once [app_data["name"] = name]
    is set. *)
Definition parse_app (name : string) (j : json) : option AppConfig :=
  match j with
  | JObj d =>
      p ← d !! "path" ≫= as_str;
      cmd ← field_default d "command" as_str "uvicorn app.main:app --reload";
      strat ← field_default d "port_strategy"
                (λ j, as_str j ≫= strategy_of_value) ANY;
      port ← field_optional d "port" (λ j, as_int j ≫= checked port_field_ok);
      pr ← field_optional d "port_range" as_int_pair;
      ps ← field_optional d "ports" as_int_list;
      pst ← field_optional d "port_step" parse_stepped;
      Some (mkApp name p cmd strat port pr ps pst)
  | _ => None
  end.

(** The loop over [data.get("apps", {}).items()]: it raises as soon as
    one entry does not validate. *)
Definition parse_apps (m : gmap string json) : option (gmap string AppConfig) :=
  if decide (map_Forall (λ k j, is_Some (parse_app k j)) m)
  then Some (map_imap parse_app m)
  else None.

Definition parse_config (data : json) : option CoordinatorConfig :=
  match data with
  | JObj d =>
      apps_doc ← match d !! "apps" with
                 | None => Some ∅
                 | Some (JObj m) => Some m
                 | Some _ => None
                 end;
      apps ← parse_apps apps_doc;
      default_range ← field_default d "default_port_range" as_int_pair
                        (8100, 8199);
      cport ← field_default d "coordinator_port" as_int 9000;
      Some (mkConfig cport default_range apps)
  | _ => None
  end.

Definition _load_config (self : PortManager)
  : result CoordinatorConfig * PortManager :=
  match config_file self with
  | None => (Return default_config, _save_config default_config self)
  | Some data =>
      match parse_config data with
      | Some cfg => (Return cfg, self)
      | None => (Raise ConfigError, self)
      end
  end.

(** [PortManager(config_path)]: the object right after [__init__], when
    loading succeeds. *)
Definition init (file : option json) : result PortManager :=
  let self := mkPortManager default_config ∅ file in
  match _load_config self with
  | (Return cfg, self) => Return (set_config cfg self)
  | (Raise e, _) => Raise e
  end.

Definition reload_config (self : PortManager) : result () * PortManager :=
  match _load_config self with
  | (Return cfg, self) => (Return (), set_config cfg self)
  | (Raise e, self) => (Raise e, self)
  end.

(** *** The application registry *)

Definition set_apps (m : gmap string AppConfig) (cfg : CoordinatorConfig) :=
  mkConfig (coordinator_port cfg) (default_port_range cfg) m.

Definition add_app (app : AppConfig) (self : PortManager) : PortManager :=
  let self := set_config (set_apps (<[name app := app]> (apps (config self)))
                            (config self)) self in
  _save_config (config self) self.

Definition remove_app (name : string) (self : PortManager)
  : bool * PortManager :=
  match apps (config self) !! name with
  | Some _ =>
      let self := set_config (set_apps (delete name (apps (config self)))
                                (config self)) self in
      (true, _save_config (config self) self)
  | None => (false, self)
  end.

Definition get_app (name : string) (self : PortManager) : option AppConfig :=
  apps (config self) !! name.

Definition list_apps (self : PortManager) : gmap string AppConfig :=
  apps (config self).

(** *** Port allocation *)

Definition is_port_available (w : world) (port : Z) : result bool :=
  match bind w port with
  | Bound => Return true
  | BindOSError => Return false
  | BindOtherError => Raise BindError
  end.

Definition default_range_ports (self : PortManager) : list Z :=
  let '(start, end_) := default_port_range (config self) in
  range start (end_ + 1).

Definition _get_ports_for_app (self : PortManager) (app_name : string)
  : list Z :=
  match apps (config self) !! app_name with
  | None => default_range_ports self
  | Some app =>
      match get_available_ports app with
      | [] => default_range_ports self
      | ports => ports
      end
  end.

Definition _get_used_ports (self : PortManager) : gset Z :=
  map_img (inst_port <$> active_instances self).

(** The key [f"{app_name}:{instance_id}"]. *)
Definition instance_key (app_name instance_id : string) : string :=
  app_name +:+ ":" +:+ instance_id.

(** [x or d] on an optional string: [None] and the empty string are
    false. *)
Definition str_or (x : option string) (d : string) : string :=
  match x with
  | Some s => if decide (s = EmptyString) then d else s
  | None => d
  end.

(** The [for port in candidate_ports] loop up to its [return]: the first
    candidate that is not in [used_ports] and can be bound.  The probe is
    made only for ports that are not in use. *)
Fixpoint first_free_port (w : world) (used_ports : gset Z)
    (candidate_ports : list Z) : result (option Z) :=
  match candidate_ports with
  | [] => Return None
  | port :: rest =>
      if decide (port ∈ used_ports) then first_free_port w used_ports rest
      else
        match is_port_available w port with
        | Return true => Return (Some port)
        | Return false => first_free_port w used_ports rest
        | Raise e => Raise e
        end
  end.

Definition exhaustion_message (app_name : string) : string :=
  "No available ports for app '" +:+ app_name +:+ "'".

Definition allocate_port (w : world) (app_name : string)
    (instance_id : option string) (pid : Z) (self : PortManager)
  : result (Z * string) * PortManager :=
  let instance_id := str_or instance_id (uuid8 w) in
  let instance_key := instance_key app_name instance_id in
  let scan (self : PortManager) :=
    let candidate_ports := _get_ports_for_app self app_name in
    let used_ports := _get_used_ports self in
    match first_free_port w used_ports candidate_ports with
    | Return (Some port) =>
        (Return (port, instance_id),
         set_active (<[instance_key :=
                        mkInstance app_name instance_id port pid (now w)]>
                       (active_instances self)) self)
    | Return None => (Raise (ValueError (exhaustion_message app_name)), self)
    | Raise e => (Raise e, self)
    end in
  match active_instances self !! instance_key with
  | Some existing =>
      match pid_exists w (Models.pid existing) with
      | Alive => (Return (inst_port existing, instance_id), self)
      | Dead =>
          scan (set_active (delete instance_key (active_instances self)) self)
      | PidOverflow => (Raise PidError, self)
      end
  | None => scan self
  end.

(** [for key in keys: del self.active_instances[key]] *)
Definition delete_keys (keys : list string) (m : gmap string ActiveInstance)
  : gmap string ActiveInstance :=
  foldl (λ m key, delete key m) m keys.

(** [[key for key, inst in self.active_instances.items() if cond(inst)]] *)
Definition keys_where (cond : ActiveInstance → bool)
    (m : gmap string ActiveInstance) : list string :=
  (filter (λ kv, cond kv.2 = true) (map_to_list m)).*1.

(** The second half of [release_port]: the [if pid:] block and the final
    [return False].  A pid of [None] or [0] is false. *)
Definition release_by_pid (app_name : string) (pid : option Z)
    (self : PortManager) : bool * PortManager :=
  match pid with
  | Some pid =>
      if decide (pid = 0) then (false, self)
      else
        let to_remove :=
          keys_where (λ inst, bool_decide (Models.pid inst = pid) &&
                              bool_decide (Models.app_name inst = app_name))
                     (active_instances self) in
        (bool_decide (0 < length to_remove)%nat,
         set_active (delete_keys to_remove (active_instances self)) self)
  | None => (false, self)
  end.

(** [release_port]: the [if instance_id:] block returns only when the key
    is registered; in every other case control reaches the pid block. *)
Definition release_port (app_name : string) (instance_id : option string)
    (pid : option Z) (self : PortManager) : bool * PortManager :=
  match instance_id with
  | Some instance_id =>
      if decide (instance_id = EmptyString)
      then release_by_pid app_name pid self
      else
        let instance_key := instance_key app_name instance_id in
        match active_instances self !! instance_key with
        | Some _ =>
            (true, set_active (delete instance_key (active_instances self)) self)
        | None => release_by_pid app_name pid self
        end
  | None => release_by_pid app_name pid self
  end.

(** The comprehension of [cleanup_dead_instances]: the keys of the
    entries whose probe answers [False], in the order of the items; a
    probe that raises ends it, before anything is deleted. *)
Fixpoint dead_keys (w : world) (items : list (string * ActiveInstance))
  : result (list string) :=
  match items with
  | [] => Return []
  | (key, inst) :: rest =>
      match pid_exists w (Models.pid inst) with
      | PidOverflow => Raise PidError
      | answer =>
          match dead_keys w rest with
          | Return keys =>
              Return (match answer with Dead => key :: keys | _ => keys end)
          | Raise e => Raise e
          end
      end
  end.

Definition cleanup_dead_instances (w : world) (self : PortManager)
  : result nat * PortManager :=
  match dead_keys w (map_to_list (active_instances self)) with
  | Return dead_instances =>
      (Return (length dead_instances),
       set_active (delete_keys dead_instances (active_instances self)) self)
  | Raise e => (Raise e, self)
  end.

Definition get_active_instances (w : world) (self : PortManager)
  : result (list ActiveInstance) * PortManager :=
  match cleanup_dead_instances w self with
  | (Return _, self) => (Return (map_to_list (active_instances self)).*2, self)
  | (Raise e, self) => (Raise e, self)
  end.

Definition get_instances_for_app (w : world) (app_name : string)
    (self : PortManager) : result (list ActiveInstance) * PortManager :=
  match cleanup_dead_instances w self with
  | (Return _, self) =>
      (Return (filter (λ inst, Models.app_name inst = app_name)
                      (map_to_list (active_instances self)).*2), self)
  | (Raise e, self) => (Raise e, self)
  end.

(** *** Sequences of calls

    The calls a client can make on one [PortManager], each with the
    answers the outside gives while it runs. *)
Inductive call :=
  | AllocatePort (app_name : string) (instance_id : option string) (pid : Z)
  | ReleasePort (app_name : string) (instance_id : option string)
                (pid : option Z)
  | CleanupDeadInstances
  | GetActiveInstances
  | GetInstancesForApp (app_name : string)
  | GetApp (name : string)
  | ListApps
  | AddApp (app : AppConfig)
  | RemoveApp (name : string)
  | ReloadConfig.

Definition perform (self : PortManager) (wc : world * call) : PortManager :=
  let '(w, c) := wc in
  match c with
  | AllocatePort app_name instance_id pid =>
      (allocate_port w app_name instance_id pid self).2
  | ReleasePort app_name instance_id pid =>
      (release_port app_name instance_id pid self).2
  | CleanupDeadInstances => (cleanup_dead_instances w self).2
  | GetActiveInstances => (get_active_instances w self).2
  | GetInstancesForApp app_name => (get_instances_for_app w app_name self).2
  | GetApp _ | ListApps => self
  | AddApp app => add_app app self
  | RemoveApp name => (remove_app name self).2
  | ReloadConfig => (reload_config self).2
  end.

Definition run (calls : list (world * call)) (self : PortManager)
  : PortManager :=
  foldl perform self calls.

(** *** Predicates used in the statements *)

(** No two registry entries hold the same port. *)
Definition ports_distinct (m : gmap string ActiveInstance) : Prop :=
  ∀ k1 k2 i1 i2,
    m !! k1 = Some i1 → m !! k2 = Some i2 →
    inst_port i1 = inst_port i2 → k1 = k2.

(** Every registered application satisfies the field constraints. *)
Definition config_fields_ok (cfg : CoordinatorConfig) : Prop :=
  map_Forall (λ _ app, app_fields_ok app) (apps cfg).

(** The application [_load_config] builds for the key [k]: the key is
    its [name]. *)
Definition renamed (k : string) (app : AppConfig) : AppConfig :=
  mkApp k (path app) (command app) (port_strategy app) (port app)
        (port_range app) (ports app) (port_step app).

(** Every application is stored under its own name, as [add_app] and
    [_load_config] store it. *)
Definition keyed_by_name (cfg : CoordinatorConfig) : Prop :=
  map_Forall (λ k app, name app = k) (apps cfg).

(** The configuration as [_load_config] rebuilds it: the dictionary key
    becomes the [name]. *)
Definition rename_apps (cfg : CoordinatorConfig) : CoordinatorConfig :=
  set_apps (map_imap (λ k app, Some (renamed k app)) (apps cfg)) cfg.

(** The string holds no [":"], the separator of [instance_key]. *)
Fixpoint colon_free (s : string) : Prop :=
  match s with
  | EmptyString => True
  | String c s' => c ≠ ":"%char ∧ colon_free s'
  end.

(** The file holds a document that loads as the configuration in
    memory, as it does after [__init__] and after every save. *)
Definition in_sync (self : PortManager) : Prop :=
  ∃ data, config_file self = Some data ∧
          parse_config data = Some (config self).

(** The applications passed to [add_app] are built by pydantic, so they
    satisfy the field constraints. *)
Definition call_ok (c : call) : Prop :=
  match c with
  | AddApp app => app_fields_ok app
  | _ => True
  end.

(** What [allocate_port] finds under its key: the entry under which it
    returns at once (its pid is alive), nothing (no entry, or one whose
    pid is dead), or the exception of the liveness probe. *)
Definition live_binding (w : world) (self : PortManager) (key : string)
  : result (option ActiveInstance) :=
  match active_instances self !! key with
  | Some existing =>
      match pid_exists w (Models.pid existing) with
      | Alive => Return (Some existing)
      | Dead => Return None
      | PidOverflow => Raise PidError
      end
  | None => Return None
  end.

(** The probe answers [False] for the pid of the entry. *)
Definition is_dead (w : world) (inst : ActiveInstance) : bool :=
  match pid_exists w (Models.pid inst) with
  | Dead => true
  | _ => false
  end.

(** The probe answers, [True] or [False], for every recorded pid. *)
Definition probe_answers (w : world) (self : PortManager) : Prop :=
  ∀ key inst, active_instances self !! key = Some inst →
    pid_exists w (Models.pid inst) ≠ PidOverflow.

(** The object the scan of [allocate_port] starts from: a stale entry
    under the call's key has been discarded. *)
Definition scan_base (self : PortManager) (key : string) : PortManager :=
  set_active (delete key (active_instances self)) self.

End Service.
Import Service.

(** ** Concrete inputs used by the examples *)

Module Demo.

Definition stepped_demo : AppConfig :=
  mkApp "api" "/srv/api" "uvicorn app.main:app" STEPPED None None None
        (Some (mkStepped 8000 10 3)).

(** The answers of psutil when the pids in [alive] run: an exception
    from 2**31 on, [True] for a running pid and [False] for any other. *)
Definition psutil_answers (alive : Z → bool) (p : Z) : pid_outcome :=
  if decide (2 ^ 31 ≤ p) then PidOverflow
  else if alive p then Alive else Dead.

(** Only pid 100 is alive and every port can be bound. *)
Definition w_100 : world :=
  mkWorld (psutil_answers (λ p, bool_decide (p = 100))) (λ _, Bound)
          "deadbeef" "2024-01-01T00:00:00+00:00".

(** Only pid 100 is alive and no port can be bound. *)
Definition w_closed : world :=
  mkWorld (psutil_answers (λ p, bool_decide (p = 100))) (λ _, BindOSError)
          "deadbeef" "2024-01-01T00:00:00+00:00".

(** Only pid 7 is alive and every port can be bound. *)
Definition w_seven : world :=
  mkWorld (psutil_answers (λ p, bool_decide (p = 7))) (λ _, Bound)
          "deadbeef" "2024-01-01T00:00:00+00:00".

(** Only pid 100 is alive; every port can be bound except those outside
    0..65535, where the probe raises. *)
Definition w_ports : world :=
  mkWorld (psutil_answers (λ p, bool_decide (p = 100)))
          (λ p, if decide (0 ≤ p ≤ 65535) then Bound else BindOtherError)
          "deadbeef" "2024-01-01T00:00:00+00:00".

Definition range_demo : AppConfig :=
  mkApp "web1" "/srv/web1" "uvicorn app.main:app --reload" RANGE None
        (Some (8010, 8012)) None None.

Definition demo_config : CoordinatorConfig :=
  mkConfig 9000 (8100, 8199)
           (<["api" := stepped_demo]> (<["web1" := range_demo]> ∅)).

Definition fresh : PortManager := mkPortManager default_config ∅ None.

Definition inst_a : ActiveInstance :=
  mkInstance "web" "a" 8100 7 "2024-01-01T00:00:00+00:00".

(** One instance of [web], owned by pid 7. *)
Definition one_instance : PortManager :=
  mkPortManager default_config {[ instance_key "web" "a" := inst_a ]} None.

(** A client that announced the pid 2**31. *)
Definition inst_big : ActiveInstance :=
  mkInstance "web" "big" 8101 (2 ^ 31) "2024-01-01T00:00:00+00:00".

(** The instance of pid 7 and the one of pid 2**31. *)
Definition with_big_pid : PortManager :=
  mkPortManager default_config
                (<[instance_key "web" "big" := inst_big]>
                   {[ instance_key "web" "a" := inst_a ]}) None.

(** An application whose only candidate port is 70000. *)
Definition far_port_manager : PortManager :=
  mkPortManager
    (mkConfig 9000 (8100, 8199)
       {[ "far" := mkApp "far" "/srv/far" "uvicorn app.main:app" LIST
                         None None (Some [70000]) None ]})
    ∅ None.

End Demo.
Import Demo.

(** ** service/main.py

    The request handlers, as functions of the request and of the global
    [port_manager], which [lifespan] has set. *)

Module Api.

(** [class PortRequest(BaseModel)] (models.py) *)
Record PortRequest := mkPortRequest {
  req_app_name : string;
  req_instance_id : option string;
  req_pid : Z
}.

(** [class PortResponse(BaseModel)] (models.py) *)
Record PortResponse := mkPortResponse {
  resp_port : Z;
  resp_app_name : string;
  resp_instance_id : string
}.

(** [class ReleaseRequest(BaseModel)] (models.py) *)
Record ReleaseRequest := mkReleaseRequest {
  rel_app_name : string;
  rel_instance_id : option string;
  rel_pid : option Z
}.

(** [class AddAppRequest(BaseModel)]; [port_step] is any dictionary. *)
Record AddAppRequest := mkAddAppRequest {
  add_name : string;
  add_path : string;
  add_command : string;
  add_port_strategy : PortStrategy;
  add_port : option Z;
  add_port_range : option (list Z);
  add_ports : option (list Z);
  add_port_step : option (gmap string json)
}.

(** What escapes a handler: an exception of the port manager, pydantic's
    [ValidationError], or the [ValueError] of [PortStrategy(value)]. *)
Inductive uncaught :=
  | ManagerError (e : exn)
  | ValidationError
  | EnumValueError.

(** A handler returns a body, raises [HTTPException], or lets an
    exception escape. *)
Inductive outcome (A : Type) :=
  | Ok (body : A)
  | HTTPException (status_code : Z) (detail : string)
  | Uncaught (e : uncaught).
Arguments Ok {A} body.
Arguments HTTPException {A} status_code detail.
Arguments Uncaught {A} e.

(** [POST /port/allocate]: only [ValueError] is caught. *)
Definition allocate_port_endpoint (w : world) (request : PortRequest)
    (port_manager : PortManager) : outcome PortResponse * PortManager :=
  match allocate_port w (req_app_name request) (req_instance_id request)
                      (req_pid request) port_manager with
  | (Return (port, instance_id), port_manager) =>
      (Ok (mkPortResponse port (req_app_name request) instance_id),
       port_manager)
  | (Raise (ValueError msg), port_manager) =>
      (HTTPException 503 msg, port_manager)
  | (Raise e, port_manager) => (Uncaught (ManagerError e), port_manager)
  end.

(** [POST /port/release] *)
Definition release_port_endpoint (request : ReleaseRequest)
    (port_manager : PortManager) : bool * PortManager :=
  release_port (rel_app_name request) (rel_instance_id request)
               (rel_pid request) port_manager.

(** A handler that catches nothing: what the port manager raises
    escapes. *)
Definition uncaught_of {A} (r : result A * PortManager)
  : outcome A * PortManager :=
  match r with
  | (Return a, port_manager) => (Ok a, port_manager)
  | (Raise e, port_manager) => (Uncaught (ManagerError e), port_manager)
  end.

(** [GET /instances], [GET /instances/{app_name}] and
    [POST /instances/cleanup] *)
Definition list_instances (w : world) (port_manager : PortManager)
  : outcome (list ActiveInstance) * PortManager :=
  uncaught_of (get_active_instances w port_manager).

Definition list_app_instances (w : world) (app_name : string)
    (port_manager : PortManager)
  : outcome (list ActiveInstance) * PortManager :=
  uncaught_of (get_instances_for_app w app_name port_manager).

Definition cleanup_instances (w : world) (port_manager : PortManager)
  : outcome nat * PortManager :=
  uncaught_of (cleanup_dead_instances w port_manager).

(** One entry of [GET /apps] and the body of [GET /apps/{name}]. *)
Record AppInfo := mkAppInfo {
  info_name : option string;
  info_path : string;
  info_command : string;
  info_port_strategy : string;
  info_available_ports : list Z
}.

(** [GET /apps]: the first ten candidate ports of every application;
    the entries carry no name. *)
Definition list_apps_endpoint (port_manager : PortManager)
  : gmap string AppInfo :=
  (λ app, mkAppInfo None (path app) (command app)
            (strategy_value (port_strategy app))
            (take 10 (get_available_ports app)))
  <$> list_apps port_manager.

Definition not_found (name : string) : string :=
  "App '" +:+ name +:+ "' not found".

(** [GET /apps/{name}] *)
Definition get_app_endpoint (name : string) (port_manager : PortManager)
  : outcome AppInfo :=
  match get_app name port_manager with
  | None => HTTPException 404 (not_found name)
  | Some app =>
      Ok (mkAppInfo (Some (Models.name app)) (path app) (command app)
            (strategy_value (port_strategy app)) (get_available_ports app))
  end.

(** The [AppConfig] constructor call of [add_app]: pydantic checks the
    bound of [port] and that the tuple has two elements; [None] is its
    [ValidationError]. *)
Definition build_app (request : AddAppRequest)
    (port_range : option (list Z)) (port_step : option SteppedPortConfig)
  : option AppConfig :=
  port ← match add_port request with
         | Some p => Some <$> checked port_field_ok p
         | None => Some None
         end;
  port_range ← match port_range with
                | Some [a; b] => Some (Some (a, b))
                | Some _ => None
                | None => Some None
                end;
  Some (mkApp (add_name request) (add_path request) (add_command request)
          (add_port_strategy request) port port_range (add_ports request)
          port_step).

(** [POST /apps].  An empty list and an empty dictionary are false.  As
    for the file, a [port_step] value that pydantic would coerce to an
    integer is not represented: only integers are taken as integers. *)
Definition add_app_endpoint (request : AddAppRequest)
    (port_manager : PortManager) : outcome (string * string) * PortManager :=
  let port_range :=
    match add_port_range request with
    | Some ((_ :: _) as l) => Some l
    | _ => None
    end in
  let port_step :=
    match add_port_step request with
    | Some d =>
        if decide (size d = 0%nat) then Some None
        else Some <$> parse_stepped (JObj d)
    | None => Some None
    end in
  match port_step with
  | None => (Uncaught ValidationError, port_manager)
  | Some port_step =>
      match build_app request port_range port_step with
      | None => (Uncaught ValidationError, port_manager)
      | Some app =>
          (Ok ("added", add_name request), add_app app port_manager)
      end
  end.

(** [DELETE /apps/{name}] *)
Definition remove_app_endpoint (name : string) (port_manager : PortManager)
  : outcome (string * string) * PortManager :=
  match remove_app name port_manager with
  | (true, port_manager) => (Ok ("removed", name), port_manager)
  | (false, port_manager) => (HTTPException 404 (not_found name), port_manager)
  end.

(** [POST /config/reload] *)
Definition reload_config_endpoint (port_manager : PortManager)
  : outcome string * PortManager :=
  match reload_config port_manager with
  | (Return _, port_manager) => (Ok "reloaded", port_manager)
  | (Raise e, port_manager) => (Uncaught (ManagerError e), port_manager)
  end.

(** [GET /health]: the two counters. *)
Definition health_check (port_manager : PortManager) : nat * nat :=
  (size (apps (config port_manager)),
   size (active_instances port_manager)).

(** *** core/service/main.py

    The later version of the service differs in [POST /apps]: the
    strategy arrives as a string, and a [port_range] is used only when it
    has two elements. *)

(** [class AppAddRequest(BaseModel)] *)
Record AppAddRequest := mkAppAddRequest {
  core_name : string;
  core_path : string;
  core_command : string;
  core_port_strategy : string;
  core_port : option Z;
  core_port_range : option (list Z);
  core_ports : option (list Z);
  core_port_step : option (gmap string json)
}.

(** [POST /apps] of core/service/main.py. *)
Definition add_app_endpoint_core (request : AppAddRequest)
    (port_manager : PortManager) : outcome (string * string) * PortManager :=
  let port_step :=
    match core_port_step request with
    | Some d =>
        if decide (size d = 0%nat) then Some None
        else Some <$> parse_stepped (JObj d)
    | None => Some None
    end in
  match port_step with
  | None => (Uncaught ValidationError, port_manager)
  | Some port_step =>
      let port_range :=
        match core_port_range request with
        | Some [a; b] => Some [a; b]
        | _ => None
        end in
      match strategy_of_value (core_port_strategy request) with
      | None => (Uncaught EnumValueError, port_manager)
      | Some strategy =>
          match build_app
                  (mkAddAppRequest (core_name request) (core_path request)
                     (core_command request) strategy (core_port request)
                     (core_port_range request) (core_ports request)
                     (core_port_step request))
                  port_range port_step with
          | None => (Uncaught ValidationError, port_manager)
          | Some app =>
              (Ok ("ok", core_name request), add_app app port_manager)
          end
      end
  end.

(** The request of the later version that carries the same fields. *)
Definition to_core (request : AddAppRequest) : AppAddRequest :=
  mkAppAddRequest (add_name request) (add_path request) (add_command request)
    (strategy_value (add_port_strategy request)) (add_port request)
    (add_port_range request) (add_ports request) (add_port_step request).

End Api.
Import Api.

(** ** Further predicates and inputs *)

Module Extra.

(** Every entry is stored under the key of its own fields. *)
Definition keys_match (m : gmap string ActiveInstance) : Prop :=
  ∀ k inst, m !! k = Some inst →
    k = instance_key (app_name inst) (instance_id inst).

(** The calls that allocate for the instance ids [ids] of one
    application, one after the other. *)
Definition allocations (w : world) (app_name : string) (pid : Z)
    (ids : list string) : list (world * call) :=
  (λ id, (w, AllocatePort app_name (Some id) pid)) <$> ids.

(** The strictly increasing lists. *)
Definition increasing (l : list Z) : Prop :=
  ∀ i j x y, (i < j)%nat → l !! i = Some x → l !! j = Some y → x < y.

(** What [/port/allocate] records for a newly bound instance. *)
Definition new_instance (w : world) (app_name instance_id : string)
    (port pid : Z) : ActiveInstance :=
  mkInstance app_name instance_id port pid (now w).

Definition web1_manager : PortManager :=
  mkPortManager (mkConfig 9000 (8100, 8199) {[ "web1" := range_demo ]})
                ∅ None.

Definition bad_port_document : json :=
  JObj {[ "apps" :=
            JObj {[ "web" := JObj (<["port" := JInt 80]>
                                    {[ "path" := JStr "/srv/web" ]}) ]} ]}.

Definition short_range_request : AddAppRequest :=
  mkAddAppRequest "web" "/srv/web" "uvicorn app.main:app" RANGE
                  None (Some [8000]) None None.

Definition dedicated_request : AddAppRequest :=
  mkAddAppRequest "web" "/srv/web" "uvicorn app.main:app" DEDICATED
                  (Some 8000) None None None.

End Extra.
Import Extra.

(** * Properties *)

(** ** The candidate ports of a strategy *)

Section Candidates.

Lemma range_lookup lo hi (i : Z) :
  0 ≤ i < hi - lo → range lo hi !! Z.to_nat i = Some (lo + i).
Proof.
  intros Hi. unfold range.
  rewrite lookup_seqZ_lt by lia. f_equal. lia.
Qed.

Lemma range_length lo hi :
  Z.of_nat (length (range lo hi)) = Z.max 0 (hi - lo).
Proof. unfold range. rewrite length_seqZ. lia. Qed.

Lemma elem_of_range lo hi x : x ∈ range lo hi ↔ lo ≤ x < hi.
Proof. unfold range. rewrite elem_of_seqZ. lia. Qed.

(** C5. For an application whose fields satisfy the model's constraints,
    [get_available_ports] is the sequence its strategy declares:
    [[p]] for a dedicated port [p]; for the range [(a, b)] the ascending
    integers from [a] to [b], [b - a + 1] of them when [a <= b]; for the
    stepped configuration [(s, step, n)] the [n] ports [s + i * step];
    for a list the list itself; for [ANY] nothing. *)
Theorem get_available_ports_by_strategy (app : AppConfig) :
  app_fields_ok app →
  (∀ p, port_strategy app = DEDICATED → port app = Some p →
     get_available_ports app = [p]) ∧
  (∀ a b, port_strategy app = RANGE → port_range app = Some (a, b) →
     get_available_ports app = seqZ a (b - a + 1) ∧
     (∀ i, 0 ≤ i < b - a + 1 →
        get_available_ports app !! Z.to_nat i = Some (a + i)) ∧
     Z.of_nat (length (get_available_ports app)) = Z.max 0 (b - a + 1) ∧
     (a ≤ b → Z.of_nat (length (get_available_ports app)) = b - a + 1)) ∧
  (∀ s stp n, port_strategy app = STEPPED →
     port_step app = Some (mkStepped s stp n) →
     Z.of_nat (length (get_available_ports app)) = n ∧
     ∀ i, 0 ≤ i < n →
        get_available_ports app !! Z.to_nat i = Some (s + i * stp)) ∧
  (∀ l, port_strategy app = LIST → ports app = Some l →
     get_available_ports app = l) ∧
  (port_strategy app = ANY → get_available_ports app = []).
Proof.
  intros [Hport Hstep]. unfold get_available_ports.
  split; [| split; [| split; [| split]]].
  - intros p -> Hp. rewrite Hp in Hport |- *. simpl in Hport.
    unfold port_field_ok in Hport.
    destruct (decide (p = 0)); [lia | done].
  - intros a b -> ->. split; [| split; [| split]].
    + unfold range. f_equal. lia.
    + intros i Hi. apply range_lookup. lia.
    + rewrite range_length. lia.
    + intros Hab. rewrite range_length. lia.
  - intros s stp n -> Hps. rewrite Hps in Hstep |- *.
    destruct Hstep as (_ & _ & Hn). simpl in Hn |- *. split.
    + rewrite length_fmap. pose proof (range_length 0 n). lia.
    + intros i Hi. rewrite list_lookup_fmap, range_lookup by lia.
      simpl. f_equal; lia.
  - intros l -> Hl. by rewrite Hl.
  - by intros ->.
Qed.

Lemma get_available_ports_by_strategy_witness :
  app_fields_ok stepped_demo ∧
  get_available_ports stepped_demo !! 2%nat = Some 8020.
Proof.
  assert (Hok : app_fields_ok stepped_demo) by (vm_compute; intuition discriminate).
  split; [exact Hok |].
  destruct (get_available_ports_by_strategy stepped_demo Hok)
    as (_ & _ & Hs & _).
  destruct (Hs 8000 10 3 eq_refl eq_refl) as [_ Hi].
  apply (Hi 2). lia.
Defined.

End Candidates.

(** ** The instance registry *)

Section Registry.

Implicit Types (m : gmap string ActiveInstance) (keys : list string).
Implicit Types (cond : ActiveInstance → bool) (self : PortManager).

Lemma lookup_delete_keys keys m k :
  delete_keys keys m !! k = if decide (k ∈ keys) then None else m !! k.
Proof.
  unfold delete_keys. revert m.
  induction keys as [| k' keys IH]; intros m; simpl.
  - destruct (decide (k ∈ [])) as [Hin |]; [| done].
    by apply elem_of_nil in Hin.
  - rewrite IH.
    destruct (decide (k ∈ keys)) as [Hin | Hnin],
             (decide (k ∈ k' :: keys)) as [Hin' | Hnin']; try done.
    + exfalso. apply Hnin'. by right.
    + apply elem_of_cons in Hin' as [-> | ?]; [| done].
      apply lookup_delete_eq.
    + apply lookup_delete_ne. intros ->. apply Hnin'. by left.
Qed.

Lemma elem_of_keys_where cond m k :
  k ∈ keys_where cond m ↔ ∃ inst, m !! k = Some inst ∧ cond inst = true.
Proof.
  unfold keys_where. rewrite list_elem_of_fmap. split.
  - intros ([k' inst] & -> & Hin).
    apply list_elem_of_filter in Hin as [Hc Hin].
    apply elem_of_map_to_list in Hin. eauto.
  - intros (inst & Hm & Hc). exists (k, inst). split; [done |].
    apply list_elem_of_filter. split; [done |].
    by apply elem_of_map_to_list.
Qed.

Lemma NoDup_keys_where cond m : NoDup (keys_where cond m).
Proof.
  unfold keys_where.
  assert (Hnd : NoDup (map_to_list m).*1) by apply NoDup_fst_map_to_list.
  revert Hnd. induction (map_to_list m) as [| [k' i'] l IH]; simpl.
  - constructor.
  - intros [Hnin Hnd]%NoDup_cons. rewrite filter_cons.
    destruct (decide _); simpl; [| by apply IH].
    apply NoDup_cons. split; [| by apply IH].
    intros ([k'' i''] & Heq & Hin%list_elem_of_filter)%list_elem_of_fmap.
    simpl in Heq. subst k''. apply Hnin.
    apply list_elem_of_fmap. exists (k', i''). split; [done | apply Hin].
Qed.

(** After the sweep loop an entry is there exactly when it was there and
    the condition did not select it. *)
Lemma lookup_delete_keys_where cond m k inst :
  delete_keys (keys_where cond m) m !! k = Some inst ↔
  m !! k = Some inst ∧ cond inst = false.
Proof.
  rewrite lookup_delete_keys. destruct (decide _) as [Hin | Hnin].
  - apply elem_of_keys_where in Hin as (inst' & Hm & Hc).
    split; [done |]. intros [Hm' Hc']. congruence.
  - split.
    + intros Hm. split; [done |].
      destruct (cond inst) eqn:Hc; [| done].
      exfalso. apply Hnin. apply elem_of_keys_where. eauto.
    + by intros [? _].
Qed.

Lemma size_delete_keys keys m :
  NoDup keys → (∀ k, k ∈ keys → is_Some (m !! k)) →
  (length keys + size (delete_keys keys m) = size m)%nat.
Proof.
  unfold delete_keys. revert m.
  induction keys as [| k keys IH]; intros m Hnd Hdom; simpl; [done |].
  apply NoDup_cons in Hnd as [Hnin Hnd].
  destruct (Hdom k) as [inst Hk]; [set_solver |].
  pose proof (map_size_delete_Some k m (mk_is_Some _ _ Hk)) as Hsz.
  assert (Hpos : size m ≠ 0%nat).
  { apply map_size_non_empty_iff. intros ->. by rewrite lookup_empty in Hk. }
  specialize (IH (delete k m) Hnd).
  enough (length keys + size (foldl (λ m key, delete key m) (delete k m) keys)
          = size (delete k m))%nat by lia.
  apply IH.
  intros k' Hin. rewrite lookup_delete_ne by set_solver.
  apply Hdom. set_solver.
Qed.

Lemma size_delete_keys_where cond m :
  (length (keys_where cond m) + size (delete_keys (keys_where cond m) m)
   = size m)%nat.
Proof.
  apply size_delete_keys; [apply NoDup_keys_where |].
  intros k (inst & Hm & _)%elem_of_keys_where. eauto.
Qed.

Lemma elem_of_values m inst :
  inst ∈ (map_to_list m).*2 ↔ ∃ k, m !! k = Some inst.
Proof.
  rewrite list_elem_of_fmap. split.
  - intros ([k i] & -> & Hin%elem_of_map_to_list). eauto.
  - intros (k & Hk). exists (k, inst). split; [done |].
    by apply elem_of_map_to_list.
Qed.

(** The comprehension of the sweep: it raises exactly when the probe
    raises for an item, and otherwise gives the keys of the dead. *)
Lemma dead_keys_cases w (items : list (string * ActiveInstance)) :
  (dead_keys w items
   = Return (filter (λ kv, is_dead w kv.2 = true) items).*1 ∧
   ∀ kv, kv ∈ items → pid_exists w (Models.pid kv.2) ≠ PidOverflow) ∨
  (dead_keys w items = Raise PidError ∧
   ∃ kv, kv ∈ items ∧ pid_exists w (Models.pid kv.2) = PidOverflow).
Proof.
  induction items as [| [k inst] items IH]; simpl.
  - left. split; [done |]. intros kv Hin. by apply elem_of_nil in Hin.
  - destruct (pid_exists w (Models.pid inst)) eqn:Hp.
    + destruct IH as [[-> Hall] | [-> (kv & Hin & Hkv)]].
      * left. rewrite filter_cons. simpl.
        assert (Hd : is_dead w inst = false)
          by (unfold is_dead; by rewrite Hp).
        rewrite Hd, decide_False by done. split; [done |].
        intros kv [-> | Hin]%elem_of_cons; [simpl; congruence | by apply Hall].
      * right. split; [done |]. exists kv. split; [by right | done].
    + destruct IH as [[-> Hall] | [-> (kv & Hin & Hkv)]].
      * left. rewrite filter_cons. simpl.
        assert (Hd : is_dead w inst = true)
          by (unfold is_dead; by rewrite Hp).
        rewrite Hd, decide_True by done. split; [done |].
        intros kv [-> | Hin]%elem_of_cons; [simpl; congruence | by apply Hall].
      * right. split; [done |]. exists kv. split; [by right | done].
    + right. split; [done |]. exists (k, inst). split; [by left | done].
Qed.

(** The two outcomes of the sweep. *)
Lemma cleanup_dead_instances_cases w self :
  (probe_answers w self ∧
   cleanup_dead_instances w self
   = (Return (length (keys_where (is_dead w) (active_instances self))),
      set_active (delete_keys (keys_where (is_dead w) (active_instances self))
                    (active_instances self)) self)) ∨
  ((∃ key inst, active_instances self !! key = Some inst ∧
                pid_exists w (Models.pid inst) = PidOverflow) ∧
   cleanup_dead_instances w self = (Raise PidError, self)).
Proof.
  unfold cleanup_dead_instances.
  destruct (dead_keys_cases w (map_to_list (active_instances self)))
    as [[-> Hall] | [-> ([k inst] & Hin & Hkv)]].
  - left. split; [| done]. intros key inst Hk.
    apply (Hall (key, inst)). by apply elem_of_map_to_list.
  - right. split; [| done]. exists k, inst.
    split; [by apply elem_of_map_to_list | done].
Qed.

Lemma cleanup_dead_instances_Return w self :
  probe_answers w self →
  cleanup_dead_instances w self
  = (Return (length (keys_where (is_dead w) (active_instances self))),
     set_active (delete_keys (keys_where (is_dead w) (active_instances self))
                   (active_instances self)) self).
Proof.
  intros Hall.
  destruct (cleanup_dead_instances_cases w self)
    as [[_ ->] | [(key & inst & Hk & Hp) _]]; [done |].
  by destruct (Hall key inst Hk).
Qed.

Lemma cleanup_dead_instances_Raise w self key inst :
  active_instances self !! key = Some inst →
  pid_exists w (Models.pid inst) = PidOverflow →
  cleanup_dead_instances w self = (Raise PidError, self).
Proof.
  intros Hk Hp.
  destruct (cleanup_dead_instances_cases w self) as [[Hall _] | [_ ->]];
    [| done].
  by destruct (Hall key inst Hk).
Qed.




End Registry.

(** ** Allocation *)

Section Allocation.

Implicit Types (w : world) (self : PortManager) (used : gset Z).

Lemma set_active_id self : set_active (active_instances self) self = self.
Proof. by destruct self. Qed.

(** What the scan loop returns. *)
Lemma first_free_port_Some w used cands port :
  first_free_port w used cands = Return (Some port) →
  port ∈ cands ∧ (port ∉ used) ∧ bind w port = Bound.
Proof.
  induction cands as [| p cands IH]; simpl; [done |].
  destruct (decide (p ∈ used)) as [Hin | Hnin].
  - intros H. destruct (IH H) as (? & ? & ?). repeat split; [by right | done | done].
  - unfold is_port_available. destruct (bind w p) eqn:Hb; [| | done].
    + intros [= <-]. repeat split; [by left | done | done].
    + intros H. destruct (IH H) as (? & ? & ?).
      repeat split; [by right | done | done].
Qed.

Lemma first_free_port_Raise w used cands e :
  first_free_port w used cands = Raise e → e = BindError.
Proof.
  induction cands as [| p cands IH]; simpl; [done |].
  destruct (decide (p ∈ used)); [done |].
  unfold is_port_available. destruct (bind w p); [done | done |].
  by intros [= <-].
Qed.



Lemma live_binding_Some w self key existing :
  live_binding w self key = Return (Some existing) ↔
  active_instances self !! key = Some existing ∧
  pid_exists w (Models.pid existing) = Alive.
Proof.
  unfold live_binding. split.
  - destruct (active_instances self !! key) as [e |]; [| done].
    destruct (pid_exists w (Models.pid e)) eqn:Hp; [| done | done].
    by intros [= <-].
  - intros [-> ->]. done.
Qed.

Lemma allocate_port_live w app oid pid self existing :
  live_binding w self (instance_key app (str_or oid (uuid8 w)))
  = Return (Some existing) →
  allocate_port w app oid pid self
  = (Return (inst_port existing, str_or oid (uuid8 w)), self).
Proof.
  intros [Hk Hp]%live_binding_Some. unfold allocate_port.
  by rewrite Hk, Hp.
Qed.

(** The probe of the entry under the key raises: the call raises and
    changes nothing. *)
Lemma allocate_port_probe_raise w app oid pid self e :
  live_binding w self (instance_key app (str_or oid (uuid8 w))) = Raise e →
  e = PidError ∧ allocate_port w app oid pid self = (Raise PidError, self).
Proof.
  unfold live_binding, allocate_port.
  destruct (active_instances self !! _) as [existing |]; [| done].
  destruct (pid_exists w (Models.pid existing)); [done | done |].
  by intros [= <-].
Qed.

Lemma allocate_port_scan w app oid pid self :
  let id := str_or oid (uuid8 w) in
  let key := instance_key app id in
  let base := scan_base self key in
  live_binding w self key = Return None →
  allocate_port w app oid pid self =
  match first_free_port w (_get_used_ports base) (_get_ports_for_app self app) with
  | Return (Some port) =>
      (Return (port, id),
       set_active (<[key := mkInstance app id port pid (now w)]>
                     (active_instances base)) base)
  | Return None => (Raise (ValueError (exhaustion_message app)), base)
  | Raise e => (Raise e, base)
  end.
Proof.
  intros id key base. unfold live_binding, allocate_port.
  fold id. fold key.
  destruct (active_instances self !! key) as [e |] eqn:Hk.
  - destruct (pid_exists w (Models.pid e)); [done | | done]. intros _. done.
  - intros _. subst base. unfold scan_base.
    rewrite (delete_id _ _ Hk), set_active_id. done.
Qed.

(** A successful call leaves an entry with the returned port under the
    key of the returned instance id. *)
Lemma allocate_port_Return_key w app oid pid self port id :
  (allocate_port w app oid pid self).1 = Return (port, id) →
  id = str_or oid (uuid8 w) ∧
  ∃ inst, active_instances (allocate_port w app oid pid self).2
          !! instance_key app id = Some inst ∧ inst_port inst = port.
Proof.
  destruct (live_binding w self (instance_key app (str_or oid (uuid8 w))))
    as [[existing |] | e] eqn:Hlive.
  - rewrite (allocate_port_live _ _ _ _ _ _ Hlive). simpl.
    intros [= <- <-]. apply live_binding_Some in Hlive as [Hk _]. eauto.
  - rewrite (allocate_port_scan _ _ _ _ _ Hlive).
    destruct (first_free_port _ _ _) as [[p |] | e'] eqn:Hscan; simpl;
      [| done | done].
    intros [= <- <-]. split; [done |].
    eexists. by rewrite lookup_insert_eq.
  - by destruct (allocate_port_probe_raise w app oid pid self e Hlive) as [_ ->].
Qed.

(** C2. When the key of [(app_name, instance_id)] is registered and the
    recorded pid is alive, [allocate_port] for that application and
    instance id returns the registered port with the same instance id and
    leaves the object as it is: no entry is added and the size of the
    registry is unchanged.  In particular, after a call that returned
    [(port, instance_id)], a second call for the same pair returns
    [(port, instance_id)] again as long as the recorded pid is alive. *)
Theorem allocate_port_idempotent w app id pid self :
  id ≠ EmptyString →
  let key := instance_key app id in
  let again := allocate_port w app (Some id) pid self in
  (∀ existing,
     active_instances self !! key = Some existing →
     pid_exists w (Models.pid existing) = Alive →
     again = (Return (inst_port existing, id), self) ∧
     size (active_instances again.2) = size (active_instances self)) ∧
  (∀ w0 oid0 pid0 self0 port,
     allocate_port w0 app oid0 pid0 self0 = (Return (port, id), self) →
     (∀ inst, active_instances self !! key = Some inst →
              pid_exists w (Models.pid inst) = Alive) →
     again = (Return (port, id), self)).
Proof.
  intros Hid key again.
  assert (Hstate : ∀ existing,
    active_instances self !! key = Some existing →
    pid_exists w (Models.pid existing) = Alive →
    again = (Return (inst_port existing, id), self)).
  { intros existing Hk Hlive. subst again.
    rewrite (allocate_port_live w app (Some id) pid self existing); simpl.
    - by rewrite decide_False.
    - rewrite decide_False by done. by apply live_binding_Some. }
  split.
  - intros existing Hk Hlive. by rewrite (Hstate existing Hk Hlive).
  - intros w0 oid0 pid0 self0 port Hfirst Hlive.
    destruct (allocate_port_Return_key w0 app oid0 pid0 self0 port id)
      as (_ & inst & Hk & Hport); [by rewrite Hfirst |].
    rewrite Hfirst in Hk. simpl in Hk.
    rewrite (Hstate inst Hk (Hlive inst Hk)). by rewrite Hport.
Qed.

Lemma allocate_port_idempotent_witness :
  "b" ≠ EmptyString ∧
  allocate_port w_100 "web" (Some "b") 100 fresh
  = (Return (8100, "b"), (allocate_port w_100 "web" (Some "b") 100 fresh).2) ∧
  allocate_port w_100 "web" (Some "b") 4242
    (allocate_port w_100 "web" (Some "b") 100 fresh).2
  = (Return (8100, "b"), (allocate_port w_100 "web" (Some "b") 100 fresh).2).
Proof.
  assert (Hid : "b" ≠ EmptyString) by done.
  assert (Hfirst : allocate_port w_100 "web" (Some "b") 100 fresh
    = (Return (8100, "b"), (allocate_port w_100 "web" (Some "b") 100 fresh).2))
    by reflexivity.
  split; [exact Hid |]. split; [exact Hfirst |].
  destruct (allocate_port_idempotent w_100 "web" "b" 4242
              (allocate_port w_100 "web" (Some "b") 100 fresh).2 Hid)
    as [_ Hsecond].
  apply (Hsecond w_100 (Some "b") 100 fresh 8100 Hfirst).
  intros inst [= <-]. reflexivity.
Defined.

(** C10. When the key is registered and the recorded pid is alive,
    [allocate_port] leaves the stored [ActiveInstance] as it is, whatever
    pid the caller passes: the recorded pid and [started_at] are not
    updated, and nothing else of the object changes. *)
Theorem allocate_port_keeps_existing w app id pid self existing :
  id ≠ EmptyString →
  active_instances self !! instance_key app id = Some existing →
  pid_exists w (Models.pid existing) = Alive →
  let self' := (allocate_port w app (Some id) pid self).2 in
  active_instances self' !! instance_key app id = Some existing ∧
  self' = self.
Proof.
  intros Hid Hk Hlive.
  rewrite (allocate_port_live w app (Some id) pid self existing); simpl.
  - done.
  - rewrite decide_False by done. by apply live_binding_Some.
Qed.

Lemma allocate_port_keeps_existing_witness :
  "a" ≠ EmptyString ∧
  active_instances one_instance !! instance_key "web" "a" = Some inst_a ∧
  pid_exists w_seven (Models.pid inst_a) = Alive ∧
  Models.pid inst_a ≠ 4242 ∧
  active_instances (allocate_port w_seven "web" (Some "a") 4242 one_instance).2
    !! instance_key "web" "a" = Some inst_a.
Proof.
  assert (Hid : "a" ≠ EmptyString) by done.
  assert (Hk : active_instances one_instance !! instance_key "web" "a"
               = Some inst_a) by reflexivity.
  assert (Hlive : pid_exists w_seven (Models.pid inst_a) = Alive)
    by reflexivity.
  split; [exact Hid |]. split; [exact Hk |]. split; [exact Hlive |].
  split; [done |].
  apply (allocate_port_keeps_existing w_seven "web" "a" 4242
           one_instance inst_a Hid Hk Hlive).
Defined.

(** An error of [allocate_port] is raised either from the scan, which
    starts once a stale entry under the call's key has been discarded, or
    by the liveness probe of the entry under the call's key, before
    anything has changed. *)
Lemma allocate_port_raise w app oid pid self e :
  (allocate_port w app oid pid self).1 = Raise e →
  (live_binding w self (instance_key app (str_or oid (uuid8 w))) = Return None ∧
   e ≠ PidError ∧
   (allocate_port w app oid pid self).2
   = scan_base self (instance_key app (str_or oid (uuid8 w)))) ∨
  (live_binding w self (instance_key app (str_or oid (uuid8 w)))
   = Raise PidError ∧
   e = PidError ∧ (allocate_port w app oid pid self).2 = self).
Proof.
  destruct (live_binding w self (instance_key app (str_or oid (uuid8 w))))
    as [[existing |] | e0] eqn:Hlive.
  - by rewrite (allocate_port_live _ _ _ _ _ _ Hlive).
  - rewrite (allocate_port_scan _ _ _ _ _ Hlive).
    destruct (first_free_port _ _ _) as [[port |] | e'] eqn:Hscan; simpl;
      [done | |].
    + intros [= <-]. by left.
    + apply first_free_port_Raise in Hscan as ->. intros [= <-]. by left.
  - destruct (allocate_port_probe_raise w app oid pid self e0 Hlive)
      as [-> ->]. simpl. intros [= <-]. by right.
Qed.

(** No live binding: the key is absent or its recorded pid is dead. *)
Lemma live_binding_None w self key :
  (∀ existing, active_instances self !! key = Some existing →
     pid_exists w (Models.pid existing) = Dead) →
  live_binding w self key = Return None.
Proof.
  intros Hstale. unfold live_binding.
  destruct (active_instances self !! key) as [existing |] eqn:Hk; [| done].
  by rewrite (Hstale existing eq_refl).
Qed.

Lemma elem_of_used_ports self p :
  p ∈ _get_used_ports self ↔
  ∃ k inst, active_instances self !! k = Some inst ∧ inst_port inst = p.
Proof.
  unfold _get_used_ports. rewrite elem_of_map_img.
  setoid_rewrite lookup_fmap. split.
  - intros (k & Hk). destruct (active_instances self !! k) as [inst |] eqn:E;
      simplify_eq/=. eauto.
  - intros (k & inst & Hk & <-). exists k. by rewrite Hk.
Qed.

Lemma elem_of_used_ports_scan_base self key p :
  p ∈ _get_used_ports (scan_base self key) ↔
  ∃ k inst, k ≠ key ∧ active_instances self !! k = Some inst ∧
            inst_port inst = p.
Proof.
  rewrite elem_of_used_ports. unfold scan_base. simpl. split.
  - intros (k & inst & Hk & Hp).
    apply lookup_delete_Some in Hk as [Hne Hk]. eauto 6.
  - intros (k & inst & Hne & Hk & Hp). exists k, inst.
    split; [| done]. by rewrite lookup_delete_ne.
Qed.




(** *** No two entries share a port *)

Lemma ports_distinct_empty : ports_distinct ∅.
Proof. intros k1 k2 i1 i2 Hk1. by rewrite lookup_empty in Hk1. Qed.

Lemma ports_distinct_sub (m m' : gmap string ActiveInstance) :
  (∀ k inst, m' !! k = Some inst → m !! k = Some inst) →
  ports_distinct m → ports_distinct m'.
Proof. intros Hsub Hm k1 k2 i1 i2 H1 H2. apply Hm; by apply Hsub. Qed.

Lemma ports_distinct_delete (m : gmap string ActiveInstance) k :
  ports_distinct m → ports_distinct (delete k m).
Proof.
  apply ports_distinct_sub. intros k' inst Hk'.
  by apply lookup_delete_Some in Hk' as [_ ?].
Qed.

Lemma ports_distinct_delete_keys (m : gmap string ActiveInstance) keys :
  ports_distinct m → ports_distinct (delete_keys keys m).
Proof.
  apply ports_distinct_sub. intros k inst. rewrite lookup_delete_keys.
  by destruct (decide _).
Qed.

Lemma ports_distinct_insert (m : gmap string ActiveInstance) k inst :
  (∀ k' inst', k' ≠ k → m !! k' = Some inst' →
     inst_port inst' ≠ inst_port inst) →
  ports_distinct m → ports_distinct (<[k := inst]> m).
Proof.
  intros Hfree Hm k1 k2 i1 i2 H1 H2 Hp.
  destruct (decide (k1 = k)) as [-> | Hne1], (decide (k2 = k)) as [-> | Hne2];
    [done | | |].
  - rewrite lookup_insert_eq in H1. rewrite lookup_insert_ne in H2 by done.
    simplify_eq. by destruct (Hfree k2 i2).
  - rewrite lookup_insert_eq in H2. rewrite lookup_insert_ne in H1 by done.
    simplify_eq. by destruct (Hfree k1 i1).
  - rewrite lookup_insert_ne in H1, H2 by done. by eapply Hm.
Qed.

(** A successful call returns a port that no entry under another key
    holds, before the call and after it. *)
Lemma allocate_port_Return w app oid pid self port id :
  ports_distinct (active_instances self) →
  (allocate_port w app oid pid self).1 = Return (port, id) →
  id = str_or oid (uuid8 w) ∧
  (∃ inst, active_instances (allocate_port w app oid pid self).2
           !! instance_key app id = Some inst ∧ inst_port inst = port) ∧
  ∀ k inst, k ≠ instance_key app id →
    active_instances self !! k = Some inst → inst_port inst ≠ port.
Proof.
  intros Hdist.
  destruct (live_binding w self (instance_key app (str_or oid (uuid8 w))))
    as [[existing |] | e] eqn:Hlive.
  - rewrite (allocate_port_live _ _ _ _ _ _ Hlive). simpl.
    intros [= <- <-]. apply live_binding_Some in Hlive as [Hk _].
    split; [done |]. split; [eauto |].
    intros k inst Hne Hk' Hp. apply Hne. by eapply Hdist.
  - rewrite (allocate_port_scan _ _ _ _ _ Hlive).
    destruct (first_free_port _ _ _) as [[p |] | e'] eqn:Hscan; simpl;
      [| done | done].
    intros [= <- <-]. split; [done |].
    apply first_free_port_Some in Hscan as (_ & Hfree & _).
    split.
    + eexists. by rewrite lookup_insert_eq.
    + intros k inst Hne Hk Hp. apply Hfree.
      apply elem_of_used_ports_scan_base. eauto 6.
  - by destruct (allocate_port_probe_raise w app oid pid self e Hlive)
      as [_ ->].
Qed.

Lemma allocate_port_ports_distinct w app oid pid self :
  ports_distinct (active_instances self) →
  ports_distinct (active_instances (allocate_port w app oid pid self).2).
Proof.
  intros Hdist.
  destruct (live_binding w self (instance_key app (str_or oid (uuid8 w))))
    as [[existing |] | e] eqn:Hlive.
  - by rewrite (allocate_port_live _ _ _ _ _ _ Hlive).
  - rewrite (allocate_port_scan _ _ _ _ _ Hlive).
    destruct (first_free_port _ _ _) as [[p |] | e'] eqn:Hscan; simpl;
      [| by apply ports_distinct_delete..].
    apply first_free_port_Some in Hscan as (_ & Hfree & _).
    apply ports_distinct_insert; [| by apply ports_distinct_delete].
    simpl. intros k' inst' Hne Hk' Hp. apply Hfree.
    apply elem_of_used_ports. eauto.
  - by destruct (allocate_port_probe_raise w app oid pid self e Hlive)
      as [_ ->].
Qed.

Lemma release_by_pid_sub app opid self k inst :
  active_instances (release_by_pid app opid self).2 !! k = Some inst →
  active_instances self !! k = Some inst.
Proof.
  unfold release_by_pid. destruct opid as [p |]; [| done].
  destruct (decide (p = 0)); [done |]. simpl.
  rewrite lookup_delete_keys. by destruct (decide _).
Qed.

Lemma release_port_sub app oid opid self k inst :
  active_instances (release_port app oid opid self).2 !! k = Some inst →
  active_instances self !! k = Some inst.
Proof.
  unfold release_port.
  destruct oid as [id |]; [| apply release_by_pid_sub].
  destruct (decide (id = EmptyString)); [apply release_by_pid_sub |].
  destruct (active_instances self !! instance_key app id);
    [| apply release_by_pid_sub].
  simpl. by intros [_ ?]%lookup_delete_Some.
Qed.

Lemma cleanup_dead_instances_sub w self k inst :
  active_instances (cleanup_dead_instances w self).2 !! k = Some inst →
  active_instances self !! k = Some inst.
Proof.
  destruct (cleanup_dead_instances_cases w self) as [[_ ->] | [_ ->]];
    [| done].
  simpl. rewrite lookup_delete_keys. by destruct (decide _).
Qed.

Lemma get_active_instances_state w self :
  (get_active_instances w self).2 = (cleanup_dead_instances w self).2.
Proof.
  unfold get_active_instances.
  by destruct (cleanup_dead_instances w self) as [[n | e] swept].
Qed.

Lemma get_instances_for_app_state w app self :
  (get_instances_for_app w app self).2 = (cleanup_dead_instances w self).2.
Proof.
  unfold get_instances_for_app.
  by destruct (cleanup_dead_instances w self) as [[n | e] swept].
Qed.

Lemma reload_config_active self :
  active_instances (reload_config self).2 = active_instances self.
Proof.
  unfold reload_config, _load_config.
  destruct (config_file self) as [data |]; [| done].
  by destruct (parse_config data).
Qed.

Lemma remove_app_active name self :
  active_instances (remove_app name self).2 = active_instances self.
Proof. unfold remove_app. by destruct (apps (config self) !! name). Qed.

Lemma perform_ports_distinct self wc :
  ports_distinct (active_instances self) →
  ports_distinct (active_instances (perform self wc)).
Proof.
  intros Hdist. destruct wc as [w c].
  destruct c as [app oid pid | app oid opid | | | app | | | app | nm |]; simpl.
  - by apply allocate_port_ports_distinct.
  - eapply ports_distinct_sub; [apply release_port_sub | done].
  - eapply ports_distinct_sub; [apply cleanup_dead_instances_sub | done].
  - rewrite get_active_instances_state.
    eapply ports_distinct_sub; [apply cleanup_dead_instances_sub | done].
  - rewrite get_instances_for_app_state.
    eapply ports_distinct_sub; [apply cleanup_dead_instances_sub | done].
  - done.
  - done.
  - done.
  - by rewrite remove_app_active.
  - by rewrite reload_config_active.
Qed.

Lemma run_ports_distinct calls self :
  ports_distinct (active_instances self) →
  ports_distinct (active_instances (run calls self)).
Proof.
  unfold run. revert self.
  induction calls as [| wc calls IH]; intros self Hdist; simpl; [done |].
  apply IH. by apply perform_ports_distinct.
Qed.

(** C1. After any sequence of calls on a [PortManager] that starts with an
    empty registry, no two registry entries hold the same port; and a
    call of [allocate_port] that succeeds there returns a port that no
    entry under another key holds, is recorded under the call's own key,
    and leaves a registry without two entries on one port. *)
Theorem no_port_collision (cfg : CoordinatorConfig) (file : option json)
    (calls : list (world * call)) :
  let self := run calls (mkPortManager cfg ∅ file) in
  ports_distinct (active_instances self) ∧
  ∀ w app oid pid port id,
    (allocate_port w app oid pid self).1 = Return (port, id) →
    (∀ k inst, k ≠ instance_key app id →
       active_instances self !! k = Some inst → inst_port inst ≠ port) ∧
    (∃ inst, active_instances (allocate_port w app oid pid self).2
             !! instance_key app id = Some inst ∧ inst_port inst = port) ∧
    ports_distinct (active_instances (allocate_port w app oid pid self).2).
Proof.
  intros self.
  assert (Hdist : ports_distinct (active_instances self)).
  { apply run_ports_distinct. simpl. apply ports_distinct_empty. }
  split; [exact Hdist |].
  intros w app oid pid port id Hret.
  destruct (allocate_port_Return _ _ _ _ _ _ _ Hdist Hret) as (_ & Hin & Hfree).
  split; [exact Hfree |]. split; [exact Hin |].
  by apply allocate_port_ports_distinct.
Qed.

Lemma no_port_collision_witness :
  let self := run [(w_100, AllocatePort "web" None 100)] fresh in
  (allocate_port w_100 "web" (Some "b") 100 self).1 = Return (8101, "b") ∧
  ∀ k inst, k ≠ instance_key "web" "b" →
    active_instances self !! k = Some inst → inst_port inst ≠ 8101.
Proof.
  intros self.
  assert (Hret : (allocate_port w_100 "web" (Some "b") 100 self).1
                 = Return (8101, "b")) by (vm_compute; reflexivity).
  split; [exact Hret |].
  destruct (no_port_collision default_config None
              [(w_100, AllocatePort "web" None 100)]) as [_ Hcall].
  apply (Hcall w_100 "web" (Some "b") 100 8101 "b" Hret).
Defined.

End Allocation.

(** ** Release *)

Section Release.

Implicit Types (self : PortManager).

Lemma release_by_pid_spec app pid self :
  pid ≠ 0 →
  let r := release_by_pid app (Some pid) self in
  (∀ k inst,
     active_instances r.2 !! k = Some inst ↔
     active_instances self !! k = Some inst ∧
     ¬ (Models.pid inst = pid ∧ app_name inst = app)) ∧
  (r.1 = true ↔
   ∃ k inst, active_instances self !! k = Some inst ∧
             Models.pid inst = pid ∧ app_name inst = app).
Proof.
  intros Hpid. unfold release_by_pid. rewrite decide_False by done. simpl.
  split.
  - intros k inst. rewrite lookup_delete_keys_where.
    rewrite andb_false_iff, !bool_decide_eq_false.
    split; intros [Hk Hc]; (split; [done |]).
    + intros [? ?]. by destruct Hc.
    + destruct (decide (Models.pid inst = pid)); [| by left].
      right. intros ?. by apply Hc.
  - rewrite bool_decide_eq_true. split.
    + intros Hlen.
      destruct (keys_where _ (active_instances self)) as [| k ks] eqn:Hks;
        [simpl in Hlen; lia |].
      assert (Hin : k ∈ keys_where
                (λ inst, bool_decide (Models.pid inst = pid) &&
                         bool_decide (app_name inst = app))
                (active_instances self)) by (rewrite Hks; by left).
      apply elem_of_keys_where in Hin as (inst & Hk & Hc).
      apply andb_true_iff in Hc as [?%bool_decide_eq_true ?%bool_decide_eq_true].
      eauto.
    + intros (k & inst & Hk & Hp & Ha).
      assert (Hin : k ∈ keys_where
                (λ inst, bool_decide (Models.pid inst = pid) &&
                         bool_decide (app_name inst = app))
                (active_instances self)).
      { apply elem_of_keys_where. exists inst. split; [done |].
        apply andb_true_iff. by rewrite !bool_decide_eq_true. }
      destruct (keys_where _ (active_instances self)); simpl; [| lia].
      by apply elem_of_nil in Hin.
Qed.

(** The pid block reports [true] exactly when it removed an entry. *)
Lemma release_by_pid_true app opid self :
  (release_by_pid app opid self).1 = true ↔
  ∃ k, is_Some (active_instances self !! k) ∧
       active_instances (release_by_pid app opid self).2 !! k = None.
Proof.
  destruct opid as [pid |]; [destruct (decide (pid = 0)) as [-> | Hpid] |].
  - simpl. split; [done |]. intros (k & [inst Hk] & Hn). congruence.
  - destruct (release_by_pid_spec app pid self Hpid) as [Hkeep Htrue].
    rewrite Htrue. split.
    + intros (k & inst & Hk & Hp & Ha). exists k. split; [eauto |].
      destruct (active_instances (release_by_pid app (Some pid) self).2 !! k)
        as [inst' |] eqn:Hk'; [| done].
      apply Hkeep in Hk' as [Hk' Hc]. rewrite Hk in Hk'.
      injection Hk' as <-. by destruct Hc.
    + intros (k & [inst Hk] & Hn). exists k, inst. split; [done |].
      destruct (decide (Models.pid inst = pid ∧ app_name inst = app))
        as [? | Hc]; [done |].
      assert (active_instances (release_by_pid app (Some pid) self).2 !! k
              = Some inst) by (by apply Hkeep).
      congruence.
  - simpl. split; [done |]. intros (k & [inst Hk] & Hn). congruence.
Qed.

(** C6 as the code has it. With a non-empty instance id whose key is
    registered, [release_port] removes the entry under that key and no
    other and returns [true].  In every other case (no instance id, or
    one whose key is not registered) a non-zero pid removes every entry
    of that application with that pid, and without such a pid nothing
    changes and the result is [false].  The call returns [true] exactly
    when it removed an entry, and it never adds or alters one. *)
Theorem release_port_selectors app oid opid self :
  let r := release_port app oid opid self in
  (∀ id, oid = Some id → id ≠ EmptyString →
     is_Some (active_instances self !! instance_key app id) →
     r.1 = true ∧
     active_instances r.2 = delete (instance_key app id) (active_instances self)) ∧
  ((∀ id, oid = Some id → id ≠ EmptyString →
      active_instances self !! instance_key app id = None) →
   (∀ pid, opid = Some pid → pid ≠ 0 →
      (∀ k inst,
         active_instances r.2 !! k = Some inst ↔
         active_instances self !! k = Some inst ∧
         ¬ (Models.pid inst = pid ∧ app_name inst = app)) ∧
      (r.1 = true ↔
       ∃ k inst, active_instances self !! k = Some inst ∧
                 Models.pid inst = pid ∧ app_name inst = app)) ∧
   (opid = None ∨ opid = Some 0 → r = (false, self))) ∧
  (r.1 = true ↔
   ∃ k, is_Some (active_instances self !! k) ∧
        active_instances r.2 !! k = None) ∧
  (∀ k inst, active_instances r.2 !! k = Some inst →
             active_instances self !! k = Some inst).
Proof.
  intros r. split; [| split; [| split]].
  - intros id -> Hid [inst Hk]. subst r. unfold release_port.
    rewrite decide_False by done. by rewrite Hk.
  - intros Habsent.
    assert (Hr : r = release_by_pid app opid self).
    { subst r. unfold release_port. destruct oid as [id |]; [| done].
      destruct (decide (id = EmptyString)) as [| Hid]; [done |].
      by rewrite (Habsent id eq_refl Hid). }
    rewrite Hr. split.
    + intros pid -> Hpid. by apply release_by_pid_spec.
    + by intros [-> | ->].
  - subst r. unfold release_port.
    destruct oid as [id |]; [| apply release_by_pid_true].
    destruct (decide (id = EmptyString)); [apply release_by_pid_true |].
    destruct (active_instances self !! instance_key app id) as [inst |] eqn:Hk;
      [| apply release_by_pid_true].
    simpl. split; [| done]. intros _. exists (instance_key app id).
    split; [eauto | apply lookup_delete_eq].
  - apply release_port_sub.
Qed.

Lemma release_port_selectors_witness :
  "a" ≠ EmptyString ∧
  is_Some (active_instances one_instance !! instance_key "web" "a") ∧
  (release_port "web" (Some "a") None one_instance).1 = true ∧
  active_instances (release_port "web" (Some "a") None one_instance).2
  = delete (instance_key "web" "a") (active_instances one_instance).
Proof.
  assert (Hid : "a" ≠ EmptyString) by done.
  assert (Hk : is_Some (active_instances one_instance
                          !! instance_key "web" "a")) by (by eexists).
  split; [exact Hid |]. split; [exact Hk |].
  destruct (release_port_selectors "web" (Some "a") None one_instance)
    as [Hby_id _].
  apply (Hby_id "a" eq_refl Hid Hk).
Defined.

(** C6 as worded fails: an instance id whose key is not registered does
    not end the call, and the pid that comes with it removes the entry of
    another instance. *)
Lemma release_port_unregistered_id_falls_to_pid :
  instance_key "web" "a" ≠ instance_key "web" "b" ∧
  active_instances one_instance !! instance_key "web" "a" = Some inst_a ∧
  (release_port "web" (Some "b") (Some 7) one_instance).1 = true ∧
  active_instances (release_port "web" (Some "b") (Some 7) one_instance).2
    !! instance_key "web" "a" = None.
Proof. repeat split; done. Qed.

End Release.

(** ** The configuration file *)

Section ConfigFile.

Implicit Types (cfg : CoordinatorConfig) (app : AppConfig) (self : PortManager).

Lemma mapM_as_int (l : list Z) : mapM as_int (JInt <$> l) = Some l.
Proof.
  induction l as [| z l IH]; [done |].
  rewrite fmap_cons. simpl. by rewrite IH.
Qed.

Lemma strategy_of_value_value s : strategy_of_value (strategy_value s) = Some s.
Proof. by destruct s. Qed.

Lemma checked_ok {A} (P : A → Prop) `{∀ x, Decision (P x)} (x : A) :
  P x → checked P x = Some x.
Proof. intros HP. unfold checked. by rewrite decide_True. Qed.

Lemma app_document_renamed k app : app_document (renamed k app) = app_document app.
Proof. done. Qed.

Lemma parse_app_document k app :
  app_fields_ok app → parse_app k (app_document app) = Some (renamed k app).
Proof.
  intros [Hport Hstep]. unfold renamed.
  destruct app as [nm pth cmd strat [p |] [[a b] |] [l |] [[s stp n] |]];
    unfold parse_app, app_document, field_default, field_optional; simpl in *.
  all: simplify_map_eq.
  all: rewrite strategy_of_value_value; simpl.
  all: rewrite ?mapM_as_int, ?(checked_ok port_field_ok) by done; simpl.
  all: rewrite ?(checked_ok stepped_ok) by done; simpl.
  all: reflexivity.
Qed.

Lemma parse_apps_documents (m : gmap string AppConfig) :
  map_Forall (λ _ app, app_fields_ok app) m →
  parse_apps (app_document <$> m) = Some (map_imap (λ k app, Some (renamed k app)) m).
Proof.
  intros Hok. unfold parse_apps. rewrite decide_True.
  - f_equal. apply map_eq. intros k.
    rewrite !map_lookup_imap, lookup_fmap.
    destruct (m !! k) as [app |] eqn:Hk; simpl; [| done].
    apply parse_app_document. by apply (Hok k).
  - intros k j. rewrite lookup_fmap.
    destruct (m !! k) as [app |] eqn:Hk; simpl; [| done].
    intros [= <-]. rewrite parse_app_document; [done |]. by apply (Hok k).
Qed.

Lemma parse_config_document cfg :
  config_fields_ok cfg →
  parse_config (config_document cfg) = Some (rename_apps cfg).
Proof.
  intros Hok. unfold parse_config, config_document, field_default.
  simplify_map_eq.
  rewrite (parse_apps_documents _ Hok). simpl.
  by destruct cfg as [cp [a b] m].
Qed.

Lemma config_document_rename_apps cfg :
  config_document (rename_apps cfg) = config_document cfg.
Proof.
  unfold config_document, rename_apps. simpl.
  do 3 f_equal. apply map_eq. intros k.
  rewrite !lookup_fmap, map_lookup_imap.
  by destruct (apps cfg !! k).
Qed.

Lemma rename_apps_keyed cfg : keyed_by_name cfg → rename_apps cfg = cfg.
Proof.
  intros Hkey. destruct cfg as [cp dr m]. unfold rename_apps, set_apps. simpl.
  f_equal. apply map_eq. intros k. rewrite map_lookup_imap.
  destruct (m !! k) as [app |] eqn:Hk; simpl; [| done].
  specialize (Hkey k app Hk). simpl in Hkey. subst k. by destruct app.
Qed.

(** C7. For a configuration whose applications satisfy the field
    constraints, loading the saved file succeeds and saving what was
    loaded writes the same document again.  The loaded configuration has
    the same [coordinator_port] and [default_port_range] and, under each
    key, the same application with every field but [name] as it was;
    [name] is the key, so the loaded configuration is the saved one when
    every application is stored under its own name. *)
Theorem config_round_trip cfg self :
  config_fields_ok cfg →
  let saved := _save_config cfg self in
  ∃ loaded,
    _load_config saved = (Return loaded, saved) ∧
    _save_config loaded saved = saved ∧
    coordinator_port loaded = coordinator_port cfg ∧
    default_port_range loaded = default_port_range cfg ∧
    (∀ k, apps loaded !! k = renamed k <$> apps cfg !! k) ∧
    (keyed_by_name cfg → loaded = cfg).
Proof.
  intros Hok saved. exists (rename_apps cfg).
  split; [| split; [| split; [| split; [| split]]]].
  - subst saved. unfold _load_config, _save_config, set_file.
    cbn [config_file]. by rewrite parse_config_document.
  - subst saved. unfold _save_config, set_file. cbn [config_file config].
    by rewrite config_document_rename_apps.
  - done.
  - done.
  - intros k. simpl. rewrite map_lookup_imap. by destruct (apps cfg !! k).
  - apply rename_apps_keyed.
Qed.

Lemma config_round_trip_witness :
  config_fields_ok demo_config ∧
  _load_config (_save_config demo_config fresh)
  = (Return demo_config, _save_config demo_config fresh).
Proof.
  assert (Hok : config_fields_ok demo_config).
  { unfold config_fields_ok, demo_config. simpl.
    repeat apply map_Forall_insert_2; [| | apply map_Forall_empty];
      (split; simpl; [done |]); [| done].
    unfold stepped_ok. simpl. lia. }
  assert (Hkey : keyed_by_name demo_config).
  { unfold keyed_by_name, demo_config. simpl.
    repeat apply map_Forall_insert_2; [done | done | apply map_Forall_empty]. }
  split; [exact Hok |].
  destruct (config_round_trip demo_config fresh Hok)
    as (loaded & Hload & _ & _ & _ & _ & Hsame).
  rewrite Hload. by rewrite (Hsame Hkey).
Defined.

(** What [_load_config] accepts satisfies the field constraints and is
    keyed by name. *)
Lemma checked_Some {A} (P : A → Prop) `{∀ x, Decision (P x)} (x y : A) :
  checked P x = Some y → y = x ∧ P x.
Proof. unfold checked. destruct (decide (P x)); [| done]. by intros [= <-]. Qed.

Lemma field_optional_Some {A} (d : gmap string json) k
    (parse : json → option A) x :
  field_optional d k parse = Some (Some x) → ∃ j, parse j = Some x.
Proof.
  unfold field_optional. destruct (d !! k) as [j |]; [| done].
  destruct j; try done; intros Hp; eexists;
    by destruct (parse _) eqn:E; simplify_eq/=.
Qed.

Lemma parse_stepped_Some j ps : parse_stepped j = Some ps → stepped_ok ps.
Proof.
  unfold parse_stepped. destruct j as [| | | | d]; try done.
  intros Hps. simplify_option_eq.
  match goal with H : checked _ _ = Some _ |- _ =>
    apply checked_Some in H as [-> ?] end.
  done.
Qed.

Lemma parse_app_Some k j app :
  parse_app k j = Some app → name app = k ∧ app_fields_ok app.
Proof.
  unfold parse_app. destruct j as [| | | | d]; try done.
  intros Happ. simplify_option_eq. split; [done |].
  split; simpl.
  - match goal with |- from_option _ _ ?o => destruct o as [p |] end;
      [| done]. simpl.
    match goal with H : field_optional _ "port" _ = _ |- _ =>
      apply field_optional_Some in H as (j & Hj) end.
    destruct (as_int j) as [z |]; [| done]. simpl in Hj.
    by apply checked_Some in Hj as [-> ?].
  - match goal with |- from_option _ _ ?o => destruct o as [ps |] end;
      [| done]. simpl.
    match goal with H : field_optional _ "port_step" _ = _ |- _ =>
      apply field_optional_Some in H as (j & Hj) end.
    by apply parse_stepped_Some in Hj.
Qed.

Lemma parse_config_Some data cfg :
  parse_config data = Some cfg → config_fields_ok cfg ∧ keyed_by_name cfg.
Proof.
  unfold parse_config. destruct data as [| | | | d]; try done.
  intros Hcfg. simplify_option_eq.
  match goal with H : parse_apps _ = Some _ |- _ =>
    unfold parse_apps in H; destruct (decide _) in H; [| done];
    injection H as <- end.
  unfold config_fields_ok, keyed_by_name. simpl.
  split; intros k app Hk; rewrite map_lookup_imap in Hk;
    destruct (_ !! k) as [j |]; simpl in Hk; try done;
    by apply parse_app_Some in Hk as [? ?].
Qed.

Lemma in_sync_fields self :
  in_sync self → config_fields_ok (config self) ∧ keyed_by_name (config self).
Proof. intros (data & _ & Hparse). by apply parse_config_Some in Hparse. Qed.

Lemma in_sync_saved cfg self :
  config_fields_ok cfg → keyed_by_name cfg →
  in_sync (_save_config cfg (set_config cfg self)).
Proof.
  intros Hok Hkey. exists (config_document cfg). split; [done |].
  change (config (_save_config cfg (set_config cfg self))) with cfg.
  rewrite parse_config_document by done.
  by rewrite rename_apps_keyed.
Qed.

Lemma init_in_sync file self : init file = Return self → in_sync self.
Proof.
  unfold init, _load_config. simpl. destruct file as [data |]; simpl.
  - destruct (parse_config data) as [cfg |] eqn:Hparse; [| done].
    intros [= <-]. by exists data.
  - intros [= <-]. exists (config_document default_config).
    split; [done |]. reflexivity.
Qed.

Lemma add_app_in_sync app self :
  app_fields_ok app → in_sync self → in_sync (add_app app self).
Proof.
  intros Happ [Hok Hkey]%in_sync_fields. unfold add_app.
  apply (in_sync_saved _ self).
  - by apply map_Forall_insert_2.
  - by apply map_Forall_insert_2.
Qed.

Lemma remove_app_in_sync nm self :
  in_sync self → in_sync (remove_app nm self).2.
Proof.
  intros Hsync. pose proof (in_sync_fields _ Hsync) as [Hok Hkey].
  unfold remove_app. destruct (apps (config self) !! nm); [| done].
  apply (in_sync_saved _ self); by apply map_Forall_delete.
Qed.

(** In a synchronised state [reload_config] reads back the
    configuration that is in memory. *)
Lemma reload_config_in_sync self :
  in_sync self → reload_config self = (Return (), self).
Proof.
  intros (data & Hfile & Hparse). unfold reload_config, _load_config.
  rewrite Hfile, Hparse. by destruct self.
Qed.

End ConfigFile.

(** ** What touches the configuration *)

Section Frame.

Implicit Types (w : world) (self : PortManager) (c : call).

Lemma allocate_port_config w app oid pid self :
  config (allocate_port w app oid pid self).2 = config self ∧
  config_file (allocate_port w app oid pid self).2 = config_file self.
Proof.
  destruct (live_binding w self (instance_key app (str_or oid (uuid8 w))))
    as [[existing |] | e0] eqn:Hlive.
  - by rewrite (allocate_port_live _ _ _ _ _ _ Hlive).
  - rewrite (allocate_port_scan _ _ _ _ _ Hlive).
    by destruct (first_free_port _ _ _) as [[port |] | e].
  - by destruct (allocate_port_probe_raise w app oid pid self e0 Hlive)
      as [_ ->].
Qed.

Lemma cleanup_dead_instances_config w self :
  config (cleanup_dead_instances w self).2 = config self ∧
  config_file (cleanup_dead_instances w self).2 = config_file self.
Proof.
  by destruct (cleanup_dead_instances_cases w self) as [[_ ->] | [_ ->]].
Qed.

Lemma release_by_pid_config app opid self :
  config (release_by_pid app opid self).2 = config self ∧
  config_file (release_by_pid app opid self).2 = config_file self.
Proof.
  unfold release_by_pid. destruct opid as [pid |]; [| done].
  by destruct (decide (pid = 0)).
Qed.

Lemma release_port_config app oid opid self :
  config (release_port app oid opid self).2 = config self ∧
  config_file (release_port app oid opid self).2 = config_file self.
Proof.
  unfold release_port.
  destruct oid as [id |]; [| apply release_by_pid_config].
  destruct (decide (id = EmptyString)); [apply release_by_pid_config |].
  destruct (active_instances self !! instance_key app id);
    [done | apply release_by_pid_config].
Qed.

Lemma in_sync_frame self self' :
  config self' = config self → config_file self' = config_file self →
  in_sync self → in_sync self'.
Proof. unfold in_sync. by intros -> ->. Qed.

Lemma perform_in_sync self w c :
  call_ok c → in_sync self → in_sync (perform self (w, c)).
Proof.
  intros Hc Hsync.
  destruct c as [app oid pid | app oid opid | | | app | | | app | nm |]; simpl.
  - destruct (allocate_port_config w app oid pid self).
    by eapply in_sync_frame.
  - destruct (release_port_config app oid opid self).
    by eapply in_sync_frame.
  - destruct (cleanup_dead_instances_config w self).
    by eapply in_sync_frame.
  - rewrite get_active_instances_state.
    destruct (cleanup_dead_instances_config w self).
    by eapply in_sync_frame.
  - rewrite get_instances_for_app_state.
    destruct (cleanup_dead_instances_config w self).
    by eapply in_sync_frame.
  - done.
  - done.
  - by apply add_app_in_sync.
  - by apply remove_app_in_sync.
  - by rewrite reload_config_in_sync.
Qed.

Lemma run_in_sync calls self :
  Forall (λ wc, call_ok wc.2) calls → in_sync self → in_sync (run calls self).
Proof.
  unfold run. revert self.
  induction calls as [| [w c] calls IH]; intros self Hok Hsync; simpl; [done |].
  apply Forall_cons in Hok as [Hc Hok].
  apply IH; [done |]. by apply perform_in_sync.
Qed.

(** C9. [allocate_port], [release_port] and [cleanup_dead_instances]
    leave the configuration and the configuration file as they are, in
    every state.  On a [PortManager] built by [__init__] and driven by any
    sequence of calls, a call that is neither [add_app] nor [remove_app]
    changes neither of them, [reload_config] included; [add_app] and a
    successful [remove_app] change the application map and write the file. *)
Theorem config_changed_only_by_registration :
  (∀ w self app oid pid,
     config (allocate_port w app oid pid self).2 = config self ∧
     config_file (allocate_port w app oid pid self).2 = config_file self) ∧
  (∀ self app oid opid,
     config (release_port app oid opid self).2 = config self ∧
     config_file (release_port app oid opid self).2 = config_file self) ∧
  (∀ w self,
     config (cleanup_dead_instances w self).2 = config self ∧
     config_file (cleanup_dead_instances w self).2 = config_file self) ∧
  (∀ file self0 calls w c,
     init file = Return self0 →
     Forall (λ wc, call_ok wc.2) calls →
     (∀ app, c ≠ AddApp app) → (∀ name, c ≠ RemoveApp name) →
     let self := run calls self0 in
     config (perform self (w, c)) = config self ∧
     config_file (perform self (w, c)) = config_file self) ∧
  (∀ self app,
     apps (config (add_app app self))
     = <[name app := app]> (apps (config self)) ∧
     config_file (add_app app self)
     = Some (config_document (config (add_app app self)))) ∧
  (∀ self name,
     is_Some (apps (config self) !! name) →
     apps (config (remove_app name self).2)
     = delete name (apps (config self)) ∧
     config_file (remove_app name self).2
     = Some (config_document (config (remove_app name self).2))).
Proof.
  split; [intros; apply allocate_port_config |].
  split; [intros; apply release_port_config |].
  split; [intros; apply cleanup_dead_instances_config |].
  split; [| split].
  - intros file self0 calls w c Hinit Hcalls Hadd Hrem self.
    assert (Hsync : in_sync self).
    { apply run_in_sync; [done |]. by eapply init_in_sync. }
    destruct c as [app oid pid | app oid opid | | | app | | | app | nm |];
      simpl.
    + apply allocate_port_config.
    + apply release_port_config.
    + apply cleanup_dead_instances_config.
    + rewrite get_active_instances_state.
      apply cleanup_dead_instances_config.
    + rewrite get_instances_for_app_state.
      apply cleanup_dead_instances_config.
    + done.
    + done.
    + by destruct (Hadd app).
    + by destruct (Hrem nm).
    + by rewrite reload_config_in_sync.
  - done.
  - intros self nm [app Happ]. unfold remove_app. by rewrite Happ.
Qed.

Lemma config_changed_only_by_registration_witness :
  init None = Return (set_file (Some (config_document default_config)) fresh) ∧
  Forall (λ wc : world * call, call_ok wc.2)
         [(w_100, AddApp range_demo); (w_100, AllocatePort "web1" None 100)] ∧
  let self := run [(w_100, AddApp range_demo);
                   (w_100, AllocatePort "web1" None 100)]
                  (set_file (Some (config_document default_config)) fresh) in
  config (perform self (w_100, ReloadConfig)) = config self ∧
  config_file (perform self (w_100, ReloadConfig)) = config_file self.
Proof.
  assert (Hinit : init None
                  = Return (set_file (Some (config_document default_config))
                              fresh)) by reflexivity.
  assert (Hcalls : Forall (λ wc : world * call, call_ok wc.2)
            [(w_100, AddApp range_demo);
             (w_100, AllocatePort "web1" None 100)]).
  { repeat constructor; simpl; done. }
  split; [exact Hinit |]. split; [exact Hcalls |].
  destruct config_changed_only_by_registration as (_ & _ & _ & Hrun & _).
  apply (Hrun None _ _ w_100 ReloadConfig Hinit Hcalls); done.
Defined.

End Frame.

(** ** Registry keys *)

Section Identity.

Implicit Types (w : world) (self : PortManager).

(** A call of [allocate_port] touches no entry under another key. *)
Lemma allocate_port_other_key w app oid pid self k :
  k ≠ instance_key app (str_or oid (uuid8 w)) →
  active_instances (allocate_port w app oid pid self).2 !! k
  = active_instances self !! k.
Proof.
  intros Hne.
  destruct (live_binding w self (instance_key app (str_or oid (uuid8 w))))
    as [[existing |] | e0] eqn:Hlive.
  - by rewrite (allocate_port_live _ _ _ _ _ _ Hlive).
  - rewrite (allocate_port_scan _ _ _ _ _ Hlive).
    destruct (first_free_port _ _ _) as [[port |] | e]; simpl.
    + by rewrite lookup_insert_ne, lookup_delete_ne.
    + by rewrite lookup_delete_ne.
    + by rewrite lookup_delete_ne.
  - by destruct (allocate_port_probe_raise w app oid pid self e0 Hlive)
      as [_ ->].
Qed.

(** A release by instance id alone touches no entry under another key. *)
Lemma release_port_other_key app id self k :
  k ≠ instance_key app id →
  active_instances (release_port app (Some id) None self).2 !! k
  = active_instances self !! k.
Proof.
  intros Hne. unfold release_port.
  destruct (decide (id = EmptyString)); [done |].
  destruct (active_instances self !! instance_key app id); [| done].
  simpl. by rewrite lookup_delete_ne.
Qed.

(** Keys tell pairs apart when the application names hold no colon. *)
Lemma instance_key_inj app app' id id' :
  colon_free app → colon_free app' →
  instance_key app id = instance_key app' id' → app = app' ∧ id = id'.
Proof.
  unfold instance_key. revert app'.
  induction app as [| c app IH]; intros [| c' app']; simpl.
  - intros _ _ Heq. injection Heq as Heq. simpl in Heq. by subst.
  - intros _ [Hc' _] Heq. injection Heq as Hc _. by destruct Hc'.
  - intros [Hc _] _ Heq. injection Heq as Hc' _. by destruct Hc.
  - intros [_ Happ] [_ Happ'] Heq. injection Heq as -> Heq.
    destruct (IH app' Happ Happ' Heq) as [-> ->]. done.
Qed.

(** C8 on the code. The pairs [("a", "b:c")] and [("a:b", "c")] differ but
    have the same key: once the first is registered, [allocate_port] for
    the second returns the first one's port without adding an entry, and
    [release_port] for the second removes the first one's entry. *)
Theorem instance_key_collision :
  ("a", "b:c") ≠ ("a:b", "c") ∧
  instance_key "a" "b:c" = instance_key "a:b" "c" ∧
  (allocate_port w_100 "a" (Some "b:c") 100 fresh).1 = Return (8100, "b:c") ∧
  (map_to_list
     (active_instances (allocate_port w_100 "a" (Some "b:c") 100 fresh).2)).*2
  = [mkInstance "a" "b:c" 8100 100 (now w_100)] ∧
  allocate_port w_100 "a:b" (Some "c") 200
    (allocate_port w_100 "a" (Some "b:c") 100 fresh).2
  = (Return (8100, "c"), (allocate_port w_100 "a" (Some "b:c") 100 fresh).2) ∧
  (release_port "a:b" (Some "c") None
     (allocate_port w_100 "a" (Some "b:c") 100 fresh).2).1 = true ∧
  active_instances
    (release_port "a:b" (Some "c") None
       (allocate_port w_100 "a" (Some "b:c") 100 fresh).2).2 = ∅.
Proof. repeat split; done. Qed.

End Identity.

(** * Further properties *)

(** ** The order of allocation *)

Section FirstFit.

Implicit Types (w : world) (self : PortManager) (used : gset Z).


Lemma first_free_port_index w used cands port :
  first_free_port w used cands = Return (Some port) →
  ∃ i, cands !! i = Some port ∧
       ∀ j q, (j < i)%nat → cands !! j = Some q →
              q ∈ used ∨ bind w q = BindOSError.
Proof.
  induction cands as [| p cands IH]; simpl; [done |].
  assert (Hshift : (p ∈ used ∨ bind w p = BindOSError) →
    first_free_port w used cands = Return (Some port) →
    ∃ i, (p :: cands) !! i = Some port ∧
         ∀ j q, (j < i)%nat → (p :: cands) !! j = Some q →
                q ∈ used ∨ bind w q = BindOSError).
  { intros Hp Hrest. destruct (IH Hrest) as (i & Hi & Hbefore).
    exists (S i). split; [done |].
    intros [| j] q Hj Hq; simpl in Hq.
    - by injection Hq as <-.
    - apply (Hbefore j); [lia | done]. }
  destruct (decide (p ∈ used)) as [Hin | Hnin].
  - apply Hshift. by left.
  - unfold is_port_available. destruct (bind w p) eqn:Hb; [| | done].
    + intros [= <-]. exists 0%nat. split; [done |]. intros j q Hj. lia.
    + apply Hshift. by right.
Qed.

(** The state a successful scan leaves. *)
Lemma allocate_port_scan_Return w app oid pid self port id :
  live_binding w self (instance_key app (str_or oid (uuid8 w))) = Return None →
  (allocate_port w app oid pid self).1 = Return (port, id) →
  id = str_or oid (uuid8 w) ∧
  first_free_port w (_get_used_ports (scan_base self (instance_key app id)))
    (_get_ports_for_app self app) = Return (Some port) ∧
  (allocate_port w app oid pid self).2
  = set_active (<[instance_key app id := new_instance w app id port pid]>
                  (delete (instance_key app id) (active_instances self)))
               self.
Proof.
  intros Hlive. rewrite (allocate_port_scan _ _ _ _ _ Hlive).
  destruct (first_free_port _ _ _) as [[p |] | e] eqn:Hscan; simpl;
    [| done | done].
  intros [= <- <-]. split; [done |]. split; [done |].
  unfold scan_base, set_active. simpl. done.
Qed.

(** X1. A call of [allocate_port] that binds a new port takes the first
    candidate, in the order of [_get_ports_for_app], that no entry under
    another key holds and that the bind probe accepts: the port taken is
    held by no entry under another key and is accepted by the probe, and
    every candidate before it is held by an entry under another key or
    refused by the probe with [OSError]. *)
Theorem allocate_port_first_fit w app oid pid self port id :
  let key := instance_key app (str_or oid (uuid8 w)) in
  (∀ existing, active_instances self !! key = Some existing →
     pid_exists w (Models.pid existing) = Dead) →
  (allocate_port w app oid pid self).1 = Return (port, id) →
  id = str_or oid (uuid8 w) ∧
  ∃ i, _get_ports_for_app self app !! i = Some port ∧
       (∀ k inst, k ≠ key → active_instances self !! k = Some inst →
          inst_port inst ≠ port) ∧
       bind w port = Bound ∧
       ∀ j q, (j < i)%nat → _get_ports_for_app self app !! j = Some q →
         (∃ k inst, k ≠ key ∧ active_instances self !! k = Some inst ∧
                    inst_port inst = q) ∨
         bind w q = BindOSError.
Proof.
  intros key Hstale Hret.
  apply live_binding_None in Hstale.
  destruct (allocate_port_scan_Return _ _ _ _ _ _ _ Hstale Hret)
    as (-> & Hscan & _).
  split; [done |].
  destruct (first_free_port_index _ _ _ _ Hscan) as (i & Hi & Hbefore).
  apply first_free_port_Some in Hscan as (_ & Hfree & Hbound).
  exists i. split; [done |]. split; [| split; [done |]].
  - intros k inst Hne Hk Hp. apply Hfree.
    apply elem_of_used_ports_scan_base. eauto 6.
  - intros j q Hj Hq. destruct (Hbefore j q Hj Hq) as [Hused | Hos].
    + left. by apply elem_of_used_ports_scan_base.
    + by right.
Qed.

Lemma allocate_port_first_fit_witness :
  (∀ existing,
     active_instances one_instance !! instance_key "web" (str_or (Some "b")
                                                           (uuid8 w_100))
     = Some existing → pid_exists w_100 (Models.pid existing) = Dead) ∧
  (allocate_port w_100 "web" (Some "b") 100 one_instance).1
  = Return (8101, "b") ∧
  ∃ i, _get_ports_for_app one_instance "web" !! i = Some 8101 ∧
       (∀ k inst, k ≠ instance_key "web" "b" →
          active_instances one_instance !! k = Some inst →
          inst_port inst ≠ 8101) ∧
       bind w_100 8101 = Bound ∧
       ∀ j q, (j < i)%nat →
         _get_ports_for_app one_instance "web" !! j = Some q →
         (∃ k inst, k ≠ instance_key "web" "b" ∧
                    active_instances one_instance !! k = Some inst ∧
                    inst_port inst = q) ∨
         bind w_100 q = BindOSError.
Proof.
  assert (Hstale : ∀ existing,
    active_instances one_instance
      !! instance_key "web" (str_or (Some "b") (uuid8 w_100)) = Some existing →
    pid_exists w_100 (Models.pid existing) = Dead) by (intros e; done).
  assert (Hret : (allocate_port w_100 "web" (Some "b") 100 one_instance).1
                 = Return (8101, "b")) by reflexivity.
  split; [exact Hstale |]. split; [exact Hret |].
  apply (allocate_port_first_fit w_100 "web" (Some "b") 100 one_instance
           8101 "b" Hstale Hret).
Defined.

(** X2. A call of [allocate_port] that binds a new port stores, under its
    key, an entry with the caller's pid and the time of the call: a stale
    entry under that key is overwritten and the registry keeps its size,
    otherwise the registry grows by one. *)
Theorem allocate_port_records_caller w app oid pid self port id :
  let key := instance_key app (str_or oid (uuid8 w)) in
  (∀ existing, active_instances self !! key = Some existing →
     pid_exists w (Models.pid existing) = Dead) →
  (allocate_port w app oid pid self).1 = Return (port, id) →
  let after := active_instances (allocate_port w app oid pid self).2 in
  after = <[key := mkInstance app id port pid (now w)]> (active_instances self) ∧
  (active_instances self !! key = None →
     size after = S (size (active_instances self))) ∧
  (is_Some (active_instances self !! key) →
     size after = size (active_instances self)).
Proof.
  intros key Hstale Hret.
  apply live_binding_None in Hstale.
  destruct (allocate_port_scan_Return _ _ _ _ _ _ _ Hstale Hret)
    as (-> & _ & ->).
  simpl. fold key. unfold new_instance. rewrite insert_delete_eq.
  split; [done |]. split.
  - intros Hk. by rewrite map_size_insert_None.
  - intros Hk. by rewrite map_size_insert_Some.
Qed.

Lemma allocate_port_records_caller_witness :
  (∀ existing,
     active_instances one_instance !! instance_key "web" (str_or (Some "a")
                                                           (uuid8 w_100))
     = Some existing → pid_exists w_100 (Models.pid existing) = Dead) ∧
  (allocate_port w_100 "web" (Some "a") 100 one_instance).1
  = Return (8100, "a") ∧
  active_instances (allocate_port w_100 "web" (Some "a") 100 one_instance).2
  = <[instance_key "web" "a" := mkInstance "web" "a" 8100 100 (now w_100)]>
      (active_instances one_instance).
Proof.
  assert (Hstale : ∀ existing,
    active_instances one_instance
      !! instance_key "web" (str_or (Some "a") (uuid8 w_100)) = Some existing →
    pid_exists w_100 (Models.pid existing) = Dead).
  { intros existing [= <-]. reflexivity. }
  assert (Hret : (allocate_port w_100 "web" (Some "a") 100 one_instance).1
                 = Return (8100, "a")) by reflexivity.
  split; [exact Hstale |]. split; [exact Hret |].
  apply (allocate_port_records_caller w_100 "web" (Some "a") 100 one_instance
           8100 "a" Hstale Hret).
Defined.

End FirstFit.

(** ** Allocation and release together *)

Section AllocateRelease.

Implicit Types (w : world) (self : PortManager).

(** X3. Releasing by the returned instance id undoes an allocation that
    registered a new key: the object is again what it was before the
    call, whatever pid comes with the release. *)
Theorem release_port_undoes_allocate w app oid pid opid self port id :
  str_or oid (uuid8 w) ≠ EmptyString →
  active_instances self !! instance_key app (str_or oid (uuid8 w)) = None →
  (allocate_port w app oid pid self).1 = Return (port, id) →
  release_port app (Some id) opid (allocate_port w app oid pid self).2
  = (true, self).
Proof.
  intros Hid Hk Hret.
  assert (Hlive : live_binding w self
            (instance_key app (str_or oid (uuid8 w))) = Return None).
  { apply live_binding_None. intros existing. by rewrite Hk. }
  destruct (allocate_port_scan_Return _ _ _ _ _ _ _ Hlive Hret)
    as (-> & _ & ->).
  unfold release_port. rewrite decide_False by done. simpl.
  rewrite lookup_insert_eq. unfold set_active. simpl.
  rewrite delete_insert_eq, delete_delete_eq, (delete_id _ _ Hk).
  by destruct self.
Qed.

Lemma release_port_undoes_allocate_witness :
  str_or (Some "b") (uuid8 w_100) ≠ EmptyString ∧
  active_instances one_instance
    !! instance_key "web" (str_or (Some "b") (uuid8 w_100)) = None ∧
  (allocate_port w_100 "web" (Some "b") 100 one_instance).1
  = Return (8101, "b") ∧
  release_port "web" (Some "b") (Some 100)
    (allocate_port w_100 "web" (Some "b") 100 one_instance).2
  = (true, one_instance).
Proof.
  assert (Hid : str_or (Some "b") (uuid8 w_100) ≠ EmptyString) by done.
  assert (Hk : active_instances one_instance
                 !! instance_key "web" (str_or (Some "b") (uuid8 w_100))
               = None) by reflexivity.
  assert (Hret : (allocate_port w_100 "web" (Some "b") 100 one_instance).1
                 = Return (8101, "b")) by reflexivity.
  split; [exact Hid |]. split; [exact Hk |]. split; [exact Hret |].
  apply (release_port_undoes_allocate w_100 "web" (Some "b") 100 (Some 100)
           one_instance 8101 "b" Hid Hk Hret).
Defined.

(** X4. After an instance has been bound to a port and released by its
    id, allocating for the same application and id again, in the same
    world, binds the same port, whatever pid the new call carries. *)
Theorem allocate_port_after_release_same_port w app id pid pid' self port :
  id ≠ EmptyString →
  (∀ existing, active_instances self !! instance_key app id = Some existing →
     pid_exists w (Models.pid existing) = Dead) →
  (allocate_port w app (Some id) pid self).1 = Return (port, id) →
  let released :=
    (release_port app (Some id) None
       (allocate_port w app (Some id) pid self).2).2 in
  active_instances released = delete (instance_key app id)
                                (active_instances self) ∧
  (allocate_port w app (Some id) pid' released).1 = Return (port, id).
Proof.
  intros Hid Hstale Hret.
  assert (Hstr : str_or (Some id) (uuid8 w) = id).
  { simpl. by rewrite decide_False. }
  assert (Hlive : live_binding w self
            (instance_key app (str_or (Some id) (uuid8 w))) = Return None).
  { apply live_binding_None. by rewrite Hstr. }
  destruct (allocate_port_scan_Return _ _ _ _ _ _ _ Hlive Hret)
    as (_ & Hscan & Hstate).
  rewrite Hstate. unfold release_port. rewrite decide_False by done.
  simpl. rewrite lookup_insert_eq. simpl.
  rewrite delete_insert_eq, delete_delete_eq.
  split; [done |].
  set (released := set_active _ (set_active _ self)).
  assert (Hlive' : live_binding w released
            (instance_key app (str_or (Some id) (uuid8 w))) = Return None).
  { unfold live_binding, released. rewrite Hstr. simpl.
    by rewrite lookup_delete_eq. }
  rewrite (allocate_port_scan _ _ _ _ _ Hlive'). rewrite Hstr.
  replace (_get_used_ports (scan_base released (instance_key app id)))
    with (_get_used_ports (scan_base self (instance_key app id))).
  - replace (_get_ports_for_app released app)
      with (_get_ports_for_app self app) by done.
    by rewrite Hscan.
  - unfold _get_used_ports, scan_base, released. simpl.
    by rewrite delete_delete_eq.
Qed.

Lemma allocate_port_after_release_same_port_witness :
  "a" ≠ EmptyString ∧
  (∀ existing,
     active_instances one_instance !! instance_key "web" "a" = Some existing →
     pid_exists w_100 (Models.pid existing) = Dead) ∧
  (allocate_port w_100 "web" (Some "a") 100 one_instance).1
  = Return (8100, "a") ∧
  (allocate_port w_100 "web" (Some "a") 4242
     (release_port "web" (Some "a") None
        (allocate_port w_100 "web" (Some "a") 100 one_instance).2).2).1
  = Return (8100, "a").
Proof.
  assert (Hid : "a" ≠ EmptyString) by done.
  assert (Hstale : ∀ existing,
    active_instances one_instance !! instance_key "web" "a" = Some existing →
    pid_exists w_100 (Models.pid existing) = Dead).
  { intros existing [= <-]. reflexivity. }
  assert (Hret : (allocate_port w_100 "web" (Some "a") 100 one_instance).1
                 = Return (8100, "a")) by reflexivity.
  split; [exact Hid |]. split; [exact Hstale |]. split; [exact Hret |].
  apply (allocate_port_after_release_same_port w_100 "web" "a" 100 4242
           one_instance 8100 Hid Hstale Hret).
Defined.

(** X5. Two successful allocations under different keys, one after the
    other, hold different ports, and both entries are registered after
    the second call. *)
Theorem allocate_port_twice_distinct_ports w1 w2 app1 app2 oid1 oid2
    pid1 pid2 self port1 port2 id1 id2 :
  ports_distinct (active_instances self) →
  instance_key app1 id1 ≠ instance_key app2 id2 →
  (allocate_port w1 app1 oid1 pid1 self).1 = Return (port1, id1) →
  let self1 := (allocate_port w1 app1 oid1 pid1 self).2 in
  (allocate_port w2 app2 oid2 pid2 self1).1 = Return (port2, id2) →
  let self2 := (allocate_port w2 app2 oid2 pid2 self1).2 in
  port1 ≠ port2 ∧
  (∃ inst, active_instances self2 !! instance_key app1 id1 = Some inst ∧
           inst_port inst = port1) ∧
  (∃ inst, active_instances self2 !! instance_key app2 id2 = Some inst ∧
           inst_port inst = port2).
Proof.
  intros Hdist Hne Hret1 self1 Hret2 self2.
  destruct (allocate_port_Return_key _ _ _ _ _ _ _ Hret1)
    as (_ & inst1 & Hk1 & Hp1).
  pose proof (allocate_port_ports_distinct w1 app1 oid1 pid1 self Hdist)
    as Hdist1.
  destruct (allocate_port_Return _ _ _ _ _ _ _ Hdist1 Hret2)
    as (Hid2 & Hin2 & Hfree2).
  split; [| split].
  - intros Heq. apply (Hfree2 (instance_key app1 id1) inst1); [done | done |].
    by rewrite Hp1.
  - exists inst1. split; [| done]. unfold self2.
    rewrite allocate_port_other_key; [done |]. by rewrite <- Hid2.
  - done.
Qed.

Lemma allocate_port_twice_distinct_ports_witness :
  ports_distinct (active_instances fresh) ∧
  instance_key "web" "a" ≠ instance_key "api" "a" ∧
  (allocate_port w_100 "web" (Some "a") 100 fresh).1 = Return (8100, "a") ∧
  (allocate_port w_100 "api" (Some "a") 100
     (allocate_port w_100 "web" (Some "a") 100 fresh).2).1
  = Return (8101, "a") ∧
  8100 ≠ 8101.
Proof.
  assert (Hdist : ports_distinct (active_instances fresh))
    by apply ports_distinct_empty.
  assert (Hne : instance_key "web" "a" ≠ instance_key "api" "a") by done.
  assert (Hret1 : (allocate_port w_100 "web" (Some "a") 100 fresh).1
                  = Return (8100, "a")) by reflexivity.
  assert (Hret2 : (allocate_port w_100 "api" (Some "a") 100
                     (allocate_port w_100 "web" (Some "a") 100 fresh).2).1
                  = Return (8101, "a")) by reflexivity.
  split; [exact Hdist |]. split; [exact Hne |]. split; [exact Hret1 |].
  split; [exact Hret2 |].
  apply (allocate_port_twice_distinct_ports w_100 w_100 "web" "api"
           (Some "a") (Some "a") 100 100 fresh 8100 8101 "a" "a"
           Hdist Hne Hret1 Hret2).
Defined.

End AllocateRelease.

(** ** Allocations in a row *)

Section InOrder.

Local Open Scope list_scope.

Implicit Types (w : world) (self : PortManager) (used : gset Z).

Lemma instance_key_inj_id app id id' :
  instance_key app id = instance_key app id' → id = id'.
Proof.
  unfold instance_key. induction app as [| c app IH]; simpl.
  - intros Heq. by injection Heq.
  - intros Heq. injection Heq as Heq. by apply IH.
Qed.

Lemma str_or_Some id d : id ≠ EmptyString → str_or (Some id) d = id.
Proof. intros Hid. simpl. by rewrite decide_False. Qed.

Lemma first_free_port_skip w used l1 l2 :
  (∀ p, p ∈ l1 → p ∈ used) →
  first_free_port w used (l1 ++ l2) = first_free_port w used l2.
Proof.
  induction l1 as [| p l1 IH]; intros Hused; simpl; [done |].
  rewrite decide_True by (apply Hused; by left).
  apply IH. intros q Hq. apply Hused. by right.
Qed.

Lemma run_allocations_other_key w (app : string) (pid : Z)
    (ids : list string) self (k : string) :
  (∀ id, id ∈ ids → id ≠ EmptyString ∧ k ≠ instance_key app id) →
  active_instances (run (allocations w app pid ids) self) !! k
  = active_instances self !! k.
Proof.
  unfold run, allocations. revert self.
  induction ids as [| id ids IH]; intros self Hids; simpl; [done |].
  destruct (Hids id) as [Hid Hne]; [by left |].
  rewrite IH by (intros id' Hin; apply Hids; by right).
  apply allocate_port_other_key. by rewrite str_or_Some.
Qed.

Lemma run_allocations_in_order w (app : string) (pid : Z)
    (ids : list string) self (taken rest : list Z) :
  (∀ p, p ∈ taken ++ rest → bind w p = Bound) →
  NoDup (taken ++ rest) → NoDup ids →
  (∀ id, id ∈ ids → id ≠ EmptyString) →
  _get_ports_for_app self app = taken ++ rest →
  (∀ p, p ∈ _get_used_ports self ↔ p ∈ taken) →
  (∀ id, id ∈ ids → active_instances self !! instance_key app id = None) →
  ∀ j id, ids !! j = Some id →
    active_instances (run (allocations w app pid ids) self)
      !! instance_key app id
    = (λ p, mkInstance app id p pid (now w)) <$> rest !! j.
Proof.
  intros Hbound. revert self taken rest Hbound.
  induction ids as [| id0 ids IH];
    intros self taken rest Hbound Hnd Hids Hne Hcands Hused Habs j id Hj;
    [done |].
  apply NoDup_cons in Hids as [Hnin Hids].
  assert (Hid0 : id0 ≠ EmptyString) by (apply Hne; by left).
  assert (Hk0 : active_instances self !! instance_key app id0 = None)
    by (apply Habs; by left).
  assert (Hothers : ∀ id', id' ∈ ids →
            id' ≠ EmptyString ∧ instance_key app id0 ≠ instance_key app id').
  { intros id' Hin. split; [apply Hne; by right |].
    intros Heq%instance_key_inj_id. by subst. }
  assert (Hlive : live_binding w self
            (instance_key app (str_or (Some id0) (uuid8 w))) = Return None).
  { rewrite str_or_Some by done. unfold live_binding. by rewrite Hk0. }
  pose proof (allocate_port_scan w app (Some id0) pid self Hlive) as Hcall.
  rewrite str_or_Some in Hcall by done. simpl in Hcall.
  assert (Hbase : scan_base self (instance_key app id0) = self).
  { unfold scan_base. by rewrite (delete_id _ _ Hk0), set_active_id. }
  rewrite Hbase, Hcands in Hcall.
  rewrite ?(delete_id _ _ Hk0) in Hcall.
  rewrite first_free_port_skip in Hcall by (intros p; apply Hused).
  change (run (allocations w app pid (id0 :: ids)) self)
    with (run (allocations w app pid ids)
            (allocate_port w app (Some id0) pid self).2).
  destruct rest as [| p rest].
  - (* every candidate is taken: the call fails and changes nothing *)
    simpl in Hcall. rewrite Hcall. simpl.
    destruct j as [| j]; simpl in Hj.
    + injection Hj as <-. simpl.
      by rewrite run_allocations_other_key.
    + assert (Hne' : ∀ id', id' ∈ ids → id' ≠ EmptyString)
        by (intros id' Hin; apply Hne; by right).
      assert (Habs' : ∀ id', id' ∈ ids →
                active_instances self !! instance_key app id' = None)
        by (intros id' Hin; apply Habs; by right).
      rewrite (IH self taken [] Hbound Hnd Hids Hne' Hcands Hused Habs'
                 j id Hj).
      by rewrite ?lookup_nil.
  - (* the next candidate is free and can be bound *)
    assert (Hp : p ∉ _get_used_ports self).
    { rewrite Hused. intros Hin.
      apply NoDup_app in Hnd as (_ & Hdisj & _).
      apply (Hdisj p Hin). by left. }
    simpl in Hcall. rewrite decide_False in Hcall by done.
    unfold is_port_available in Hcall.
    rewrite Hbound in Hcall by (apply elem_of_app; right; by left).
    rewrite Hcall. simpl.
    set (self1 := set_active _ self).
    destruct j as [| j]; simpl in Hj.
    + injection Hj as <-. simpl.
      rewrite run_allocations_other_key by done.
      apply lookup_insert_eq.
    + simpl.
      assert (Hbound' : ∀ q, q ∈ (taken ++ [p]) ++ rest → bind w q = Bound).
      { intros q Hq. apply Hbound. by rewrite <- app_assoc in Hq. }
      assert (Hnd' : NoDup ((taken ++ [p]) ++ rest))
        by (by rewrite <- app_assoc).
      assert (Hne' : ∀ id', id' ∈ ids → id' ≠ EmptyString)
        by (intros id' Hin; apply Hne; by right).
      assert (Hcands' : _get_ports_for_app self1 app = (taken ++ [p]) ++ rest).
      { rewrite <- app_assoc. exact Hcands. }
      assert (Hused' : ∀ q, q ∈ _get_used_ports self1 ↔ q ∈ taken ++ [p]).
      { intros q.
        rewrite elem_of_used_ports, elem_of_app, list_elem_of_singleton.
        rewrite <- Hused, elem_of_used_ports. unfold self1. simpl. split.
        - intros (k & inst & Hk & Hq).
          destruct (decide (k = instance_key app id0)) as [-> | Hkne].
          + rewrite lookup_insert_eq in Hk. injection Hk as <-. by right.
          + rewrite lookup_insert_ne in Hk by done. left. eauto.
        - intros [(k & inst & Hk & Hq) | ->].
          + exists k, inst. split; [| done].
            rewrite lookup_insert_ne; [done |]. intros <-. congruence.
          + eexists _, _. split; [apply lookup_insert_eq | done]. }
      assert (Habs' : ∀ id', id' ∈ ids →
                active_instances self1 !! instance_key app id' = None).
      { intros id' Hin. unfold self1. simpl.
        destruct (Hothers id' Hin) as [_ Hkne].
        rewrite lookup_insert_ne by done. apply Habs. by right. }
      apply (IH self1 (taken ++ [p]) rest Hbound' Hnd' Hids Hne' Hcands'
               Hused' Habs' j id Hj).
Qed.

(** X6. Allocations in a row for distinct instance ids of one
    application, on an empty registry and with every candidate port
    bindable, hand out the candidate ports in their declared order: the
    j-th instance holds the j-th candidate, and the instances beyond the
    last candidate are not registered (their calls found no port). *)
Theorem allocations_follow_candidate_order w (app : string) (pid : Z)
    (ids : list string) self :
  active_instances self = ∅ →
  NoDup (_get_ports_for_app self app) →
  (∀ p, p ∈ _get_ports_for_app self app → bind w p = Bound) →
  NoDup ids → (∀ id, id ∈ ids → id ≠ EmptyString) →
  ∀ j id, ids !! j = Some id →
    active_instances (run (allocations w app pid ids) self)
      !! instance_key app id
    = (λ p, mkInstance app id p pid (now w))
      <$> _get_ports_for_app self app !! j.
Proof.
  intros Hempty Hnd Hbound Hids Hne j id Hj.
  apply (run_allocations_in_order w app pid ids self []
           (_get_ports_for_app self app)); try done.
  - intros p. rewrite elem_of_used_ports, Hempty. split.
    + intros (k & inst & Hk & _). by rewrite lookup_empty in Hk.
    + intros Hin. by apply elem_of_nil in Hin.
  - intros id' _. by rewrite Hempty.
Qed.

Lemma allocations_follow_candidate_order_witness :
  active_instances web1_manager = ∅ ∧
  NoDup (_get_ports_for_app web1_manager "web1") ∧
  (∀ p, p ∈ _get_ports_for_app web1_manager "web1" → bind w_100 p = Bound) ∧
  NoDup ["a"; "b"; "c"; "d"] ∧
  (∀ id, id ∈ ["a"; "b"; "c"; "d"] → id ≠ EmptyString) ∧
  active_instances
    (run (allocations w_100 "web1" 100 ["a"; "b"; "c"; "d"]) web1_manager)
    !! instance_key "web1" "c"
  = Some (mkInstance "web1" "c" 8012 100 (now w_100)) ∧
  active_instances
    (run (allocations w_100 "web1" 100 ["a"; "b"; "c"; "d"]) web1_manager)
    !! instance_key "web1" "d"
  = None.
Proof.
  assert (Hempty : active_instances web1_manager = ∅) by reflexivity.
  assert (Hnd : NoDup (_get_ports_for_app web1_manager "web1")).
  { apply (NoDup_seqZ 8010 3). }
  assert (Hbound : ∀ p, p ∈ _get_ports_for_app web1_manager "web1" →
                        bind w_100 p = Bound) by done.
  assert (Hids : NoDup ["a"; "b"; "c"; "d"]).
  { repeat (apply NoDup_cons; split;
      [intros Hin;
       repeat (apply elem_of_cons in Hin as [Hin | Hin]; [discriminate Hin |]);
       by apply elem_of_nil in Hin |]).
    apply NoDup_nil_2. }
  assert (Hne : ∀ id, id ∈ ["a"; "b"; "c"; "d"] → id ≠ EmptyString).
  { intros id Hin ->.
    repeat (apply elem_of_cons in Hin as [Hin | Hin]; [discriminate Hin |]).
    by apply elem_of_nil in Hin. }
  split; [exact Hempty |]. split; [exact Hnd |]. split; [exact Hbound |].
  split; [exact Hids |]. split; [exact Hne |].
  split.
  - apply (allocations_follow_candidate_order w_100 "web1" 100
             ["a"; "b"; "c"; "d"] web1_manager Hempty Hnd Hbound Hids Hne
             2%nat "c" eq_refl).
  - apply (allocations_follow_candidate_order w_100 "web1" 100
             ["a"; "b"; "c"; "d"] web1_manager Hempty Hnd Hbound Hids Hne
             3%nat "d" eq_refl).
Defined.

End InOrder.

(** ** What the registry keeps *)

Section RegistryInvariants.

Implicit Types (w : world) (self : PortManager).
Implicit Types (m : gmap string ActiveInstance).

Lemma keys_match_sub m m' :
  (∀ k inst, m' !! k = Some inst → m !! k = Some inst) →
  keys_match m → keys_match m'.
Proof. intros Hsub Hm k inst Hk. apply Hm. by apply Hsub. Qed.

Lemma allocate_port_keys_match w app oid pid self :
  keys_match (active_instances self) →
  keys_match (active_instances (allocate_port w app oid pid self).2).
Proof.
  intros Hm.
  assert (Hdel : keys_match
    (delete (instance_key app (str_or oid (uuid8 w))) (active_instances self))).
  { eapply keys_match_sub; [| exact Hm].
    intros k inst Hk. by apply lookup_delete_Some in Hk as [_ ?]. }
  destruct (live_binding w self (instance_key app (str_or oid (uuid8 w))))
    as [[existing |] | e0] eqn:Hlive.
  - by rewrite (allocate_port_live _ _ _ _ _ _ Hlive).
  - rewrite (allocate_port_scan _ _ _ _ _ Hlive).
    destruct (first_free_port _ _ _) as [[p |] | e]; simpl; [| done | done].
    intros k inst Hk.
    destruct (decide (k = instance_key app (str_or oid (uuid8 w))))
      as [-> | Hne].
    + rewrite lookup_insert_eq in Hk. by injection Hk as <-.
    + rewrite lookup_insert_ne in Hk by done. by apply Hdel.
  - by destruct (allocate_port_probe_raise w app oid pid self e0 Hlive)
      as [_ ->].
Qed.

Lemma perform_keys_match self wc :
  keys_match (active_instances self) →
  keys_match (active_instances (perform self wc)).
Proof.
  intros Hm. destruct wc as [w c].
  destruct c as [app oid pid | app oid opid | | | app | | | app | nm |]; simpl.
  - by apply allocate_port_keys_match.
  - eapply keys_match_sub; [apply release_port_sub | done].
  - eapply keys_match_sub; [apply cleanup_dead_instances_sub | done].
  - rewrite get_active_instances_state.
    eapply keys_match_sub; [apply cleanup_dead_instances_sub | done].
  - rewrite get_instances_for_app_state.
    eapply keys_match_sub; [apply cleanup_dead_instances_sub | done].
  - done.
  - done.
  - done.
  - by rewrite remove_app_active.
  - by rewrite reload_config_active.
Qed.

Lemma run_keys_match calls self :
  keys_match (active_instances self) →
  keys_match (active_instances (run calls self)).
Proof.
  unfold run. revert self.
  induction calls as [| wc calls IH]; intros self Hm; simpl; [done |].
  apply IH. by apply perform_keys_match.
Qed.

(** X7. After any sequence of calls on a [PortManager] that starts with
    an empty registry, every entry is stored under the key built from its
    own [app_name] and [instance_id]; so every instance that
    [get_instances_for_app] lists for an application is the entry found
    under that application and the listed instance id. *)
Theorem registry_keys_match (cfg : CoordinatorConfig) (file : option json)
    (calls : list (world * call)) :
  let self := run calls (mkPortManager cfg ∅ file) in
  keys_match (active_instances self) ∧
  ∀ w app listed inst,
    (get_instances_for_app w app self).1 = Return listed →
    inst ∈ listed →
    active_instances self !! instance_key app (instance_id inst) = Some inst.
Proof.
  intros self.
  assert (Hm : keys_match (active_instances self)).
  { apply run_keys_match. intros k inst Hk. simpl in Hk.
    by rewrite lookup_empty in Hk. }
  split; [exact Hm |].
  intros w app listed inst Hcall Hin.
  unfold get_instances_for_app in Hcall.
  destruct (cleanup_dead_instances_cases w self) as [[_ Hc] | [_ Hc]];
    rewrite Hc in Hcall; simpl in Hcall; [| done].
  injection Hcall as <-.
  apply list_elem_of_filter in Hin as [Happ Hin].
  apply elem_of_values in Hin as (k & Hk).
  apply lookup_delete_keys_where in Hk as [Hk _].
  rewrite <- Happ. by rewrite <- (Hm k inst Hk).
Qed.

Lemma registry_keys_match_witness :
  let self := run [(w_100, AllocatePort "web" None 100)] fresh in
  (get_instances_for_app w_100 "web" self).1
  = Return [mkInstance "web" "deadbeef" 8100 100 (now w_100)] ∧
  active_instances self !! instance_key "web" "deadbeef"
  = Some (mkInstance "web" "deadbeef" 8100 100 (now w_100)).
Proof.
  intros self.
  assert (Hcall : (get_instances_for_app w_100 "web" self).1
                  = Return [mkInstance "web" "deadbeef" 8100 100 (now w_100)])
    by (vm_compute; reflexivity).
  split; [exact Hcall |].
  destruct (registry_keys_match default_config None
              [(w_100, AllocatePort "web" None 100)]) as [_ Hlisted].
  apply (Hlisted w_100 "web"
           [mkInstance "web" "deadbeef" 8100 100 (now w_100)]
           (mkInstance "web" "deadbeef" 8100 100 (now w_100)) Hcall).
  by left.
Defined.

Lemma keys_where_nil (cond : ActiveInstance → bool) m :
  (∀ k inst, m !! k = Some inst → cond inst = false) →
  keys_where cond m = [].
Proof.
  intros Hnone. apply elem_of_nil_inv. intros k Hin.
  apply elem_of_keys_where in Hin as (inst & Hk & Hc).
  rewrite (Hnone k inst Hk) in Hc. discriminate Hc.
Qed.

(** X8. [cleanup_dead_instances] has nothing left to do after itself: a
    sweep that returns leaves a registry on which a second sweep, in the
    same world, returns 0 and changes nothing; a sweep of a registry
    whose pids are all alive returns 0 and changes nothing; and a sweep
    that raises has changed nothing, so that a second sweep raises
    again. *)
Theorem cleanup_dead_instances_idempotent w self :
  (∀ n swept, cleanup_dead_instances w self = (Return n, swept) →
     cleanup_dead_instances w swept = (Return 0%nat, swept)) ∧
  ((∀ k inst, active_instances self !! k = Some inst →
      pid_exists w (Models.pid inst) = Alive) →
   cleanup_dead_instances w self = (Return 0%nat, self)) ∧
  (∀ e, (cleanup_dead_instances w self).1 = Raise e →
     e = PidError ∧
     (cleanup_dead_instances w self).2 = self ∧
     cleanup_dead_instances w (cleanup_dead_instances w self).2
     = (Raise PidError, self)).
Proof.
  assert (Hlive : ∀ s,
    (∀ k inst, active_instances s !! k = Some inst →
       pid_exists w (Models.pid inst) = Alive) →
    cleanup_dead_instances w s = (Return 0%nat, s)).
  { intros s Hall. rewrite cleanup_dead_instances_Return.
    - rewrite keys_where_nil.
      + simpl. by rewrite set_active_id.
      + intros k inst Hk. unfold is_dead. by rewrite (Hall k inst Hk).
    - intros k inst Hk. by rewrite (Hall k inst Hk). }
  split; [| split; [apply Hlive |]].
  - intros n swept Hcall.
    destruct (cleanup_dead_instances_cases w self) as [[Hall Hc] | [_ Hc]];
      rewrite Hc in Hcall; [| done].
    injection Hcall as _ <-.
    apply Hlive. intros k inst Hk. simpl in Hk.
    apply lookup_delete_keys_where in Hk as [Hk Hc'].
    specialize (Hall k inst Hk). unfold is_dead in Hc'.
    by destruct (pid_exists w (Models.pid inst)).
  - intros e He.
    destruct (cleanup_dead_instances_cases w self) as [[_ Hc] | [_ Hc]];
      rewrite Hc in He; simpl in He; [done |].
    injection He as <-. rewrite Hc. simpl. by rewrite Hc.
Qed.

Lemma cleanup_dead_instances_idempotent_witness :
  (∀ k inst, active_instances one_instance !! k = Some inst →
     pid_exists w_seven (Models.pid inst) = Alive) ∧
  cleanup_dead_instances w_seven one_instance = (Return 0%nat, one_instance) ∧
  cleanup_dead_instances w_100 one_instance
  = (Return 1%nat, set_active ∅ one_instance) ∧
  cleanup_dead_instances w_100 (set_active ∅ one_instance)
  = (Return 0%nat, set_active ∅ one_instance) ∧
  (cleanup_dead_instances w_100 with_big_pid).1 = Raise PidError ∧
  cleanup_dead_instances w_100 (cleanup_dead_instances w_100 with_big_pid).2
  = (Raise PidError, with_big_pid).
Proof.
  assert (Hall : ∀ k inst, active_instances one_instance !! k = Some inst →
                   pid_exists w_seven (Models.pid inst) = Alive).
  { intros k inst Hk.
    destruct (decide (k = instance_key "web" "a")) as [-> | Hne].
    - injection Hk as <-. reflexivity.
    - unfold one_instance in Hk. simpl in Hk.
      by rewrite lookup_singleton_ne in Hk. }
  assert (Hfirst : cleanup_dead_instances w_100 one_instance
                   = (Return 1%nat, set_active ∅ one_instance))
    by (vm_compute; reflexivity).
  assert (Hraise : (cleanup_dead_instances w_100 with_big_pid).1
                   = Raise PidError) by (vm_compute; reflexivity).
  split; [exact Hall |].
  destruct (cleanup_dead_instances_idempotent w_seven one_instance)
    as (_ & Hnoop & _).
  split; [apply (Hnoop Hall) |].
  destruct (cleanup_dead_instances_idempotent w_100 one_instance)
    as (Hagain & _ & _).
  split; [exact Hfirst |]. split; [apply (Hagain _ _ Hfirst) |].
  destruct (cleanup_dead_instances_idempotent w_100 with_big_pid)
    as (_ & _ & Hstuck).
  split; [exact Hraise |]. apply (Hstuck _ Hraise).
Defined.

(** X9. A release that names only an instance id, or only a pid, has
    nothing left to do after itself: the same call again returns [False]
    and changes nothing. *)
Theorem release_port_twice app oid opid self :
  (opid = None ∨ opid = Some 0 ∨ oid = None ∨ oid = Some EmptyString) →
  release_port app oid opid (release_port app oid opid self).2
  = (false, (release_port app oid opid self).2).
Proof.
  assert (Hnoop : ∀ pid s, pid ≠ 0 →
    (∀ k inst, active_instances s !! k = Some inst →
       ¬ (Models.pid inst = pid ∧ app_name inst = app)) →
    release_by_pid app (Some pid) s = (false, s)).
  { intros pid s Hpid Hnone. unfold release_by_pid.
    rewrite decide_False by done. rewrite keys_where_nil.
    - by destruct s.
    - intros k inst Hk. apply andb_false_iff. rewrite !bool_decide_eq_false.
      destruct (decide (Models.pid inst = pid)); [| by left].
      right. intros ?. by apply (Hnone k inst Hk). }
  assert (Hpid : ∀ s,
    release_by_pid app opid (release_by_pid app opid s).2
    = (false, (release_by_pid app opid s).2)).
  { intros s. destruct opid as [pid |]; [| done].
    destruct (decide (pid = 0)) as [-> | Hpid]; [done |].
    apply Hnoop; [done |]. intros k inst Hk.
    by apply (release_by_pid_spec app pid s Hpid) in Hk as [_ Hc]. }
  assert (Hnone : ∀ s o, o = None ∨ o = Some 0 →
            release_by_pid app o s = (false, s)).
  { intros s o [-> | ->]; done. }
  assert (Habsent : ∀ id s, id ≠ EmptyString →
            active_instances s !! instance_key app id = None →
            release_port app (Some id) opid s = release_by_pid app opid s).
  { intros id s Hid Hk. unfold release_port.
    rewrite decide_False by done. by rewrite Hk. }
  intros Hsel.
  destruct oid as [id |]; [| apply Hpid].
  destruct (decide (id = EmptyString)) as [-> | Hid]; [apply Hpid |].
  assert (Hopid : opid = None ∨ opid = Some 0).
  { destruct Hsel as [? | [? | [? | Heq]]]; try by eauto.
    by injection Heq. }
  destruct (active_instances self !! instance_key app id) as [inst |] eqn:Hk.
  - assert (Hfirst : release_port app (Some id) opid self
      = (true, set_active (delete (instance_key app id)
                             (active_instances self)) self)).
    { unfold release_port. rewrite decide_False by done. by rewrite Hk. }
    rewrite Hfirst. cbn [snd].
    rewrite Habsent; [by apply Hnone | done |].
    apply lookup_delete_eq.
  - rewrite (Habsent id self Hid Hk), (Hnone _ _ Hopid). cbn [snd].
    by rewrite (Habsent id self Hid Hk), (Hnone _ _ Hopid).
Qed.

Lemma release_port_twice_witness :
  ((None : option Z) = None ∨ None = Some 0 ∨ Some "a" = None ∨
   Some "a" = Some EmptyString) ∧
  release_port "web" (Some "a") None
    (release_port "web" (Some "a") None one_instance).2
  = (false, (release_port "web" (Some "a") None one_instance).2).
Proof.
  assert (Hsel : (None : option Z) = None ∨ None = Some 0 ∨
                 Some "a" = None ∨ Some "a" = Some EmptyString) by (by left).
  split; [exact Hsel |].
  apply (release_port_twice "web" (Some "a") None one_instance Hsel).
Defined.

Lemma length_values m : length (map_to_list m).*2 = size m.
Proof. by rewrite length_fmap, length_map_to_list. Qed.

(** X10. [/health] counts the registry as it is, without a sweep and
    without a liveness probe: it answers with the size of the registry
    and the number of registered applications in every state.  When the
    probe answers for every recorded pid, [/instances] and
    [/instances/cleanup] answer too, and the count of [/health] is the
    number of instances [/instances] lists plus the number of entries
    [/instances/cleanup] removes, in the same world.  When the probe
    raises for a recorded pid, both let its exception escape and
    [/health] still reports every entry. *)
Theorem health_check_counts_unswept w (port_manager : PortManager) :
  (health_check port_manager).2 = size (active_instances port_manager) ∧
  (health_check port_manager).1 = size (list_apps port_manager) ∧
  ((∀ key inst, active_instances port_manager !! key = Some inst →
      pid_exists w (Models.pid inst) ≠ PidOverflow) →
   ∃ listed cleaned,
     (list_instances w port_manager).1 = Ok listed ∧
     (cleanup_instances w port_manager).1 = Ok cleaned ∧
     (health_check port_manager).2 = (length listed + cleaned)%nat) ∧
  ((∃ key inst, active_instances port_manager !! key = Some inst ∧
                pid_exists w (Models.pid inst) = PidOverflow) →
   list_instances w port_manager
   = (Uncaught (ManagerError PidError), port_manager) ∧
   cleanup_instances w port_manager
   = (Uncaught (ManagerError PidError), port_manager)).
Proof.
  split; [done |]. split; [done |]. split.
  - intros Hall.
    pose proof (cleanup_dead_instances_Return w port_manager Hall) as Hsweep.
    unfold list_instances, cleanup_instances, get_active_instances.
    rewrite Hsweep. simpl. eexists _, _. split; [done |]. split; [done |].
    rewrite length_values.
    pose proof (size_delete_keys_where (is_dead w)
                  (active_instances port_manager)). lia.
  - intros (key & inst & Hk & Hp).
    pose proof (cleanup_dead_instances_Raise w port_manager key inst Hk Hp)
      as Hraise.
    unfold list_instances, cleanup_instances, get_active_instances.
    by rewrite Hraise.
Qed.

Lemma health_check_counts_unswept_witness :
  (∀ key inst, active_instances one_instance !! key = Some inst →
     pid_exists w_100 (Models.pid inst) ≠ PidOverflow) ∧
  (∃ listed cleaned,
     (list_instances w_100 one_instance).1 = Ok listed ∧
     (cleanup_instances w_100 one_instance).1 = Ok cleaned ∧
     (health_check one_instance).2 = (length listed + cleaned)%nat) ∧
  (∃ key inst, active_instances with_big_pid !! key = Some inst ∧
               pid_exists w_100 (Models.pid inst) = PidOverflow) ∧
  list_instances w_100 with_big_pid
  = (Uncaught (ManagerError PidError), with_big_pid) ∧
  (health_check with_big_pid).2 = 2%nat.
Proof.
  assert (Hall : ∀ key inst,
    active_instances one_instance !! key = Some inst →
    pid_exists w_100 (Models.pid inst) ≠ PidOverflow).
  { intros key inst Hk.
    destruct (decide (key = instance_key "web" "a")) as [-> | Hne].
    - injection Hk as <-. done.
    - unfold one_instance in Hk. simpl in Hk.
      by rewrite lookup_singleton_ne in Hk. }
  assert (Hbig : ∃ key inst,
    active_instances with_big_pid !! key = Some inst ∧
    pid_exists w_100 (Models.pid inst) = PidOverflow).
  { exists (instance_key "web" "big"), inst_big. split; reflexivity. }
  destruct (health_check_counts_unswept w_100 one_instance)
    as (_ & _ & Hanswer & _).
  destruct (health_check_counts_unswept w_100 with_big_pid)
    as (_ & _ & _ & Hescape).
  split; [exact Hall |]. split; [apply (Hanswer Hall) |].
  split; [exact Hbig |]. split; [apply (Hescape Hbig) |].
  vm_compute. reflexivity.
Defined.

End RegistryInvariants.

(** ** Candidate lists *)

Section CandidateLists.

Implicit Types (self : PortManager) (app : AppConfig).

Lemma increasing_NoDup (l : list Z) : increasing l → NoDup l.
Proof.
  intros Hinc. apply NoDup_alt. intros i j x Hi Hj.
  destruct (Nat.lt_total i j) as [Hlt | [Heq | Hgt]]; [| done |].
  - pose proof (Hinc i j x x Hlt Hi Hj). lia.
  - pose proof (Hinc j i x x Hgt Hj Hi). lia.
Qed.

Lemma increasing_range lo hi : increasing (range lo hi).
Proof.
  intros i j x y Hij Hi Hj. unfold range in *.
  apply lookup_seqZ in Hi as [-> _]. apply lookup_seqZ in Hj as [-> _]. lia.
Qed.

(** X11. For every strategy but [LIST], the candidate ports of an
    application that satisfies the field constraints are strictly
    increasing, so no port is offered twice. *)
Theorem get_available_ports_increasing app :
  app_fields_ok app → port_strategy app ≠ LIST →
  increasing (get_available_ports app) ∧ NoDup (get_available_ports app).
Proof.
  intros [_ Hstep] Hlist.
  assert (Hinc : increasing (get_available_ports app)).
  { unfold get_available_ports.
    destruct (port_strategy app); [| | done | |].
    - destruct (port app) as [p |]; [destruct (decide (p = 0)) |];
        intros i j x y Hij Hi Hj; destruct j; try done; try lia.
    - destruct (port_range app) as [[a b] |]; [apply increasing_range |].
      by intros i j x y Hij Hi.
    - destruct (port_step app) as [ps |]; [| by intros i j x y Hij Hi].
      destruct Hstep as (_ & Hs & _).
      intros i j x y Hij Hi Hj.
      apply list_lookup_fmap_Some in Hi as (x' & -> & Hi).
      apply list_lookup_fmap_Some in Hj as (y' & -> & Hj).
      pose proof (increasing_range _ _ i j x' y' Hij Hi Hj). nia.
    - by intros i j x y Hij Hi. }
  split; [exact Hinc | by apply increasing_NoDup].
Qed.

Lemma get_available_ports_increasing_witness :
  app_fields_ok stepped_demo ∧ port_strategy stepped_demo ≠ LIST ∧
  NoDup (get_available_ports stepped_demo).
Proof.
  assert (Hok : app_fields_ok stepped_demo).
  { split; simpl; [done |]. unfold stepped_ok. simpl. lia. }
  assert (Hstrat : port_strategy stepped_demo ≠ LIST) by done.
  split; [exact Hok |]. split; [exact Hstrat |].
  apply (get_available_ports_increasing stepped_demo Hok Hstrat).
Defined.

(** X12. [_get_ports_for_app] serves an application from the default
    range whenever it is not registered or its own strategy yields no
    port (an inverted range, for instance); otherwise from its own
    candidates.  The list is empty only if the default range is. *)
Theorem _get_ports_for_app_fallback self (app_name : string) :
  let lo := (default_port_range (config self)).1 in
  let hi := (default_port_range (config self)).2 in
  (get_app app_name self = None →
     _get_ports_for_app self app_name = seqZ lo (hi - lo + 1)) ∧
  (∀ app, get_app app_name self = Some app →
     get_available_ports app = [] →
     _get_ports_for_app self app_name = seqZ lo (hi - lo + 1)) ∧
  (∀ app a b, get_app app_name self = Some app →
     port_strategy app = RANGE → port_range app = Some (a, b) → b < a →
     _get_ports_for_app self app_name = seqZ lo (hi - lo + 1)) ∧
  (∀ app, get_app app_name self = Some app →
     get_available_ports app ≠ [] →
     _get_ports_for_app self app_name = get_available_ports app) ∧
  (lo ≤ hi → _get_ports_for_app self app_name ≠ []).
Proof.
  intros lo hi.
  assert (Hdefault : default_range_ports self = seqZ lo (hi - lo + 1)).
  { unfold default_range_ports, lo, hi, range.
    destruct (default_port_range (config self)) as [a b]. simpl.
    f_equal. lia. }
  assert (Hempty : ∀ app, get_app app_name self = Some app →
            get_available_ports app = [] →
            _get_ports_for_app self app_name = seqZ lo (hi - lo + 1)).
  { intros app Happ Hnil. unfold _get_ports_for_app, get_app in *.
    by rewrite Happ, Hnil. }
  split; [| split; [| split; [| split]]].
  - intros Happ. unfold _get_ports_for_app, get_app in *. by rewrite Happ.
  - exact Hempty.
  - intros app a b Happ Hstrat Hrange Hinv. apply (Hempty app Happ).
    unfold get_available_ports. rewrite Hstrat, Hrange.
    unfold range. apply seqZ_nil. lia.
  - intros app Happ Hne. unfold _get_ports_for_app, get_app in *.
    rewrite Happ. by destruct (get_available_ports app).
  - intros Hle Hnil.
    assert (Hlen : length (seqZ lo (hi - lo + 1)) ≠ 0%nat)
      by (rewrite length_seqZ; lia).
    unfold _get_ports_for_app in Hnil.
    destruct (apps (config self) !! app_name) as [app |].
    + destruct (get_available_ports app) eqn:Hports; [| done].
      rewrite Hdefault in Hnil. by rewrite Hnil in Hlen.
    + rewrite Hdefault in Hnil. by rewrite Hnil in Hlen.
Qed.

Lemma _get_ports_for_app_fallback_witness :
  get_app "nobody" web1_manager = None ∧
  _get_ports_for_app web1_manager "nobody" = seqZ 8100 100.
Proof.
  assert (Happ : get_app "nobody" web1_manager = None) by reflexivity.
  split; [exact Happ |].
  destruct (_get_ports_for_app_fallback web1_manager "nobody")
    as [Hunknown _].
  apply (Hunknown Happ).
Defined.

End CandidateLists.

(** ** The application registry and its file *)

Section AppRegistry.

Implicit Types (self : PortManager) (app : AppConfig).

(** X13. [add_app] stores the application under its own name, replacing
    one of that name and leaving the others, and writes the file;
    [remove_app] of a registered name removes it and writes the file;
    [remove_app] of a name that is not registered returns [False] and
    writes nothing.  Neither touches the instance registry. *)
Theorem app_registry_lookup app (n : string) self :
  get_app (name app) (add_app app self) = Some app ∧
  (n ≠ name app → get_app n (add_app app self) = get_app n self) ∧
  config_file (add_app app self)
  = Some (config_document (config (add_app app self))) ∧
  active_instances (add_app app self) = active_instances self ∧
  get_app n (remove_app n self).2 = None ∧
  ((remove_app n self).1 = true ↔ is_Some (get_app n self)) ∧
  (is_Some (get_app n self) →
     config_file (remove_app n self).2
     = Some (config_document (config (remove_app n self).2))) ∧
  (get_app n self = None → remove_app n self = (false, self)) ∧
  active_instances (remove_app n self).2 = active_instances self.
Proof.
  unfold get_app, add_app, remove_app. simpl.
  split; [apply lookup_insert_eq |].
  split; [intros Hne; by apply lookup_insert_ne |].
  split; [done |]. split; [done |].
  destruct (apps (config self) !! n) as [a |] eqn:Hn; simpl.
  - split; [apply lookup_delete_eq |].
    split; [split; eauto |]. split; [done |]. split; done.
  - split; [done |].
    split; [split; [done | by intros [? ?]] |].
    split; [by intros [? ?] |]. split; done.
Qed.

Lemma app_registry_lookup_witness :
  get_app "ghost" web1_manager = None ∧
  remove_app "ghost" web1_manager = (false, web1_manager).
Proof.
  assert (Hn : get_app "ghost" web1_manager = None) by reflexivity.
  split; [exact Hn |].
  destruct (app_registry_lookup range_demo "ghost" web1_manager)
    as (_ & _ & _ & _ & _ & _ & _ & Habsent & _).
  apply (Habsent Hn).
Defined.

(** X14. A restart keeps the applications and forgets the instances: on a
    [PortManager] built by [__init__] and driven by any sequence of
    calls, building a new one from the file as it then is succeeds and
    gives the configuration that was in memory, with an empty registry. *)
Theorem restart_keeps_apps (file : option json) self0
    (calls : list (world * call)) :
  init file = Return self0 →
  Forall (λ wc, call_ok wc.2) calls →
  let self := run calls self0 in
  init (config_file self)
  = Return (mkPortManager (config self) ∅ (config_file self)).
Proof.
  intros Hinit Hcalls self.
  assert (Hsync : in_sync self).
  { apply run_in_sync; [done |]. by eapply init_in_sync. }
  destruct Hsync as (data & Hfile & Hparse).
  rewrite Hfile. unfold init, _load_config. cbn [config_file].
  by rewrite Hparse.
Qed.

Lemma restart_keeps_apps_witness :
  init None = Return (set_file (Some (config_document default_config)) fresh) ∧
  Forall (λ wc : world * call, call_ok wc.2)
         [(w_100, AddApp range_demo); (w_100, AllocatePort "web1" None 100)] ∧
  let self := run [(w_100, AddApp range_demo);
                   (w_100, AllocatePort "web1" None 100)]
                  (set_file (Some (config_document default_config)) fresh) in
  init (config_file self)
  = Return (mkPortManager (config self) ∅ (config_file self)).
Proof.
  assert (Hinit : init None
                  = Return (set_file (Some (config_document default_config))
                              fresh)) by reflexivity.
  assert (Hcalls : Forall (λ wc : world * call, call_ok wc.2)
            [(w_100, AddApp range_demo);
             (w_100, AllocatePort "web1" None 100)]).
  { repeat constructor; simpl; done. }
  split; [exact Hinit |]. split; [exact Hcalls |].
  apply (restart_keeps_apps None _ _ Hinit Hcalls).
Defined.

(** X15. Without a configuration file [_load_config] returns the
    defaults and writes them, and the file it writes loads as the
    defaults; so [reload_config] on a [PortManager] whose file is gone
    replaces the configuration in memory by the defaults and keeps the
    instance registry. *)
Theorem load_config_missing_file self :
  config_file self = None →
  _load_config self
  = (Return default_config,
     mkPortManager (config self) (active_instances self)
                   (Some (config_document default_config))) ∧
  parse_config (config_document default_config) = Some default_config ∧
  reload_config self
  = (Return (),
     mkPortManager default_config (active_instances self)
                   (Some (config_document default_config))) ∧
  init None
  = Return (mkPortManager default_config ∅
                          (Some (config_document default_config))).
Proof.
  intros Hfile. unfold reload_config, _load_config. rewrite Hfile.
  repeat split.
Qed.

Lemma load_config_missing_file_witness :
  config_file web1_manager = None ∧
  config (reload_config web1_manager).2 = default_config.
Proof.
  assert (Hfile : config_file web1_manager = None) by reflexivity.
  split; [exact Hfile |].
  destruct (load_config_missing_file web1_manager Hfile)
    as (_ & _ & Hreload & _).
  by rewrite Hreload.
Defined.

(** X16. Whatever [_load_config] returns satisfies the field constraints
    and has every application under its own name; loading an existing
    file changes nothing of the object, and the applications loaded are
    exactly the entries of the document: no entry is dropped. *)
Theorem load_config_well_formed self cfg self' :
  _load_config self = (Return cfg, self') →
  config_fields_ok cfg ∧ keyed_by_name cfg ∧
  config self' = config self ∧
  active_instances self' = active_instances self ∧
  (∀ d, config_file self = Some (JObj d) →
     self' = self ∧
     ∀ m, d !! "apps" = Some (JObj m) →
          ∀ k, is_Some (apps cfg !! k) ↔ is_Some (m !! k)).
Proof.
  unfold _load_config.
  destruct (config_file self) as [data |] eqn:Hfile.
  - destruct (parse_config data) as [cfg' |] eqn:Hparse; [| done].
    intros [= <- <-].
    destruct (parse_config_Some _ _ Hparse) as [Hok Hkey].
    split; [done |]. split; [done |]. split; [done |]. split; [done |].
    intros d [= ->]. split; [done |].
    intros m Hm k. unfold parse_config in Hparse. rewrite Hm in Hparse.
    simpl in Hparse. unfold parse_apps in Hparse.
    destruct (decide (map_Forall (λ k j, is_Some (parse_app k j)) m))
      as [Hall |]; [| done].
    simpl in Hparse.
    destruct (field_default d "default_port_range" _ _); [| done].
    destruct (field_default d "coordinator_port" _ _); [| done].
    simpl in Hparse. injection Hparse as <-. simpl.
    rewrite map_lookup_imap.
    destruct (m !! k) as [j |] eqn:Hk; simpl.
    + split; [eauto |]. intros _. by apply (Hall k j).
    + split; by intros [? ?].
  - intros [= <- <-]. simpl.
    split; [apply map_Forall_empty |]. split; [apply map_Forall_empty |].
    split; [done |]. split; [done |]. done.
Qed.

Lemma load_config_well_formed_witness :
  _load_config (_save_config demo_config fresh)
  = (Return demo_config, _save_config demo_config fresh) ∧
  keyed_by_name demo_config.
Proof.
  assert (Hload : _load_config (_save_config demo_config fresh)
                  = (Return demo_config, _save_config demo_config fresh))
    by reflexivity.
  split; [exact Hload |].
  apply (load_config_well_formed _ _ _ Hload).
Defined.

(** X17. A document with an application whose [port] is outside
    1024..65535 does not load: [reload_config] raises and leaves the
    configuration in memory, the registry and the file as they are, and
    [__init__] on such a file raises. *)
Theorem load_config_rejects_bad_port self (d m a : gmap string json)
    (k : string) (p : Z) :
  config_file self = Some (JObj d) →
  d !! "apps" = Some (JObj m) →
  m !! k = Some (JObj a) →
  a !! "port" = Some (JInt p) →
  ¬ port_field_ok p →
  reload_config self = (Raise ConfigError, self) ∧
  init (Some (JObj d)) = Raise ConfigError.
Proof.
  intros Hfile Hd Hk Hport Hbad.
  assert (Happ : parse_app k (JObj a) = None).
  { unfold parse_app.
    destruct (a !! "path" ≫= as_str); [| done]. simpl.
    destruct (field_default a "command" _ _); [| done]. simpl.
    destruct (field_default a "port_strategy" _ _); [| done]. simpl.
    assert (Hf : field_optional a "port"
                   (λ j, as_int j ≫= checked port_field_ok) = None).
    { unfold field_optional. rewrite Hport. simpl.
      unfold checked. by rewrite decide_False. }
    by rewrite Hf. }
  assert (Hparse : parse_config (JObj d) = None).
  { unfold parse_config. rewrite Hd. simpl. unfold parse_apps.
    rewrite decide_False; [done |].
    intros Hall. pose proof (Hall k _ Hk) as [app Happ'].
    rewrite Happ in Happ'. discriminate Happ'. }
  split.
  - unfold reload_config, _load_config. by rewrite Hfile, Hparse.
  - unfold init, _load_config. cbn [config_file]. by rewrite Hparse.
Qed.

Lemma load_config_rejects_bad_port_witness :
  ¬ port_field_ok 80 ∧
  init (Some bad_port_document) = Raise ConfigError.
Proof.
  assert (Hbad : ¬ port_field_ok 80) by (unfold port_field_ok; lia).
  split; [exact Hbad |].
  apply (load_config_rejects_bad_port
           (mkPortManager default_config ∅ (Some bad_port_document))
           {[ "apps" :=
                JObj {[ "web" := JObj (<["port" := JInt 80]>
                                        {[ "path" := JStr "/srv/web" ]}) ]} ]}
           {[ "web" := JObj (<["port" := JInt 80]>
                              {[ "path" := JStr "/srv/web" ]}) ]}
           (<["port" := JInt 80]> {[ "path" := JStr "/srv/web" ]})
           "web" 80 eq_refl eq_refl eq_refl eq_refl Hbad).
Defined.

End AppRegistry.

(** ** The request handlers *)

Section Handlers.

Implicit Types (w : world) (port_manager : PortManager).

Lemma live_binding_Raise w self key e :
  live_binding w self key = Raise e →
  e = PidError ∧
  ∃ existing, active_instances self !! key = Some existing ∧
              pid_exists w (Models.pid existing) = PidOverflow.
Proof.
  unfold live_binding.
  destruct (active_instances self !! key) as [existing |]; [| done].
  destruct (pid_exists w (Models.pid existing)) eqn:Hp; [done | done |].
  intros [= <-]. eauto.
Qed.

Lemma allocate_port_Raise_kind w app oid pid self e :
  (allocate_port w app oid pid self).1 = Raise e →
  e = ValueError (exhaustion_message app) ∨ e = BindError ∨ e = PidError.
Proof.
  intros He.
  pose proof (allocate_port_raise _ _ _ _ _ _ He)
    as [(Hlive & _ & _) | (_ & -> & _)]; [| by right; right].
  rewrite (allocate_port_scan _ _ _ _ _ Hlive) in He.
  destruct (first_free_port _ _ _) as [[p |] | e'] eqn:Hscan; simpl in He.
  - done.
  - injection He as <-. by left.
  - injection He as <-. right. left. by eapply first_free_port_Raise.
Qed.

(** X18. [/port/allocate] answers with the requested application name,
    the instance id of the request (the generated one when the request
    has none) and the port now registered under their key; its only
    [HTTPException] is a 503 whose detail is the exhaustion message for
    the application, raised after nothing but a stale entry under the
    key was removed.  Two exceptions escape, since only [ValueError] is
    caught: the one of the bind probe, after nothing but a stale entry
    under the key was removed, and the one of the liveness probe of the
    entry under the key, with nothing changed. *)
Theorem allocate_port_endpoint_outcomes w request port_manager :
  let app := req_app_name request in
  let id := str_or (req_instance_id request) (uuid8 w) in
  let r := allocate_port_endpoint w request port_manager in
  (∀ body, r.1 = Ok body →
     resp_app_name body = app ∧ resp_instance_id body = id ∧
     ∃ inst, active_instances r.2 !! instance_key app id = Some inst ∧
             inst_port inst = resp_port body) ∧
  (∀ status detail, r.1 = HTTPException status detail →
     status = 503 ∧
     detail = "No available ports for app '" +:+ app +:+ "'" ∧
     active_instances r.2
     = delete (instance_key app id) (active_instances port_manager)) ∧
  (∀ e, r.1 = Uncaught e →
     (e = ManagerError BindError ∧
      active_instances r.2
      = delete (instance_key app id) (active_instances port_manager)) ∨
     (e = ManagerError PidError ∧ r.2 = port_manager ∧
      ∃ existing,
        active_instances port_manager !! instance_key app id = Some existing ∧
        pid_exists w (Models.pid existing) = PidOverflow)).
Proof.
  intros app id r. subst r. unfold allocate_port_endpoint.
  destruct (allocate_port w (req_app_name request) (req_instance_id request)
              (req_pid request) port_manager) as [res pm'] eqn:Hcall.
  assert (Hres : (allocate_port w (req_app_name request)
                    (req_instance_id request) (req_pid request)
                    port_manager).1 = res) by (by rewrite Hcall).
  assert (Hpm : (allocate_port w (req_app_name request)
                   (req_instance_id request) (req_pid request)
                   port_manager).2 = pm') by (by rewrite Hcall).
  destruct res as [[port iid] | e].
  - split; [| split]; [| done | done].
    intros body [= <-]. simpl.
    destruct (allocate_port_Return_key _ _ _ _ _ _ _ Hres)
      as (-> & inst & Hk & Hp).
    rewrite Hpm in Hk. split; [done |]. split; [done |]. eauto.
  - pose proof (allocate_port_raise _ _ _ _ _ _ Hres)
      as [(_ & Hne & Hstate) | (Hlive & -> & Hstate)];
      rewrite Hpm in Hstate.
    + destruct (allocate_port_Raise_kind _ _ _ _ _ _ Hres)
        as [-> | [-> | ->]]; [| | done].
      * split; [done |]. split; [| done].
        intros status detail [= <- <-]. split; [done |]. split; [done |].
        simpl. by rewrite Hstate.
      * split; [done |]. split; [done |]. intros e [= <-]. left.
        split; [done |]. simpl. by rewrite Hstate.
    + split; [done |]. split; [done |]. intros e [= <-]. right.
      split; [done |]. split; [done |].
      by apply live_binding_Raise in Hlive as [_ ?].
Qed.

Lemma allocate_port_endpoint_outcomes_witness :
  (allocate_port_endpoint w_closed (mkPortRequest "web" (Some "a") 100)
     one_instance).1
  = HTTPException 503 "No available ports for app 'web'" ∧
  active_instances
    (allocate_port_endpoint w_closed (mkPortRequest "web" (Some "a") 100)
       one_instance).2
  = delete (instance_key "web" "a") (active_instances one_instance) ∧
  (allocate_port_endpoint w_100 (mkPortRequest "web" (Some "big") 100)
     with_big_pid).1
  = Uncaught (ManagerError PidError) ∧
  (allocate_port_endpoint w_ports (mkPortRequest "far" (Some "x") 100)
     far_port_manager).1
  = Uncaught (ManagerError BindError) ∧
  active_instances
    (allocate_port_endpoint w_ports (mkPortRequest "far" (Some "x") 100)
       far_port_manager).2
  = delete (instance_key "far" "x") (active_instances far_port_manager).
Proof.
  assert (Hexc : (allocate_port_endpoint w_closed
                    (mkPortRequest "web" (Some "a") 100) one_instance).1
                 = HTTPException 503 "No available ports for app 'web'")
    by (vm_compute; reflexivity).
  assert (Hpid : (allocate_port_endpoint w_100
                    (mkPortRequest "web" (Some "big") 100) with_big_pid).1
                 = Uncaught (ManagerError PidError))
    by (vm_compute; reflexivity).
  assert (Hbind : (allocate_port_endpoint w_ports
                     (mkPortRequest "far" (Some "x") 100) far_port_manager).1
                  = Uncaught (ManagerError BindError))
    by (vm_compute; reflexivity).
  split; [exact Hexc |].
  destruct (allocate_port_endpoint_outcomes w_closed
              (mkPortRequest "web" (Some "a") 100) one_instance)
    as (_ & H503 & _).
  split; [apply (H503 _ _ Hexc) |].
  split; [exact Hpid |]. split; [exact Hbind |].
  destruct (allocate_port_endpoint_outcomes w_ports
              (mkPortRequest "far" (Some "x") 100) far_port_manager)
    as (_ & _ & Hescape).
  destruct (Hescape _ Hbind) as [[_ Hstate] | [Hkind _]];
    [exact Hstate | discriminate Hkind].
Defined.

(** X19. [POST /apps] registers only applications that satisfy the
    field constraints, under the name of the request, and keeps the file
    in step with the configuration; a request it does not accept (a port
    outside 1024..65535, for one) ends in a [ValidationError] that
    escapes, with nothing registered and nothing written.  The handler
    raises no [HTTPException]. *)
Theorem add_app_endpoint_registers_valid request port_manager :
  let r := add_app_endpoint request port_manager in
  (∀ body, r.1 = Ok body →
     body = ("added", add_name request) ∧
     ∃ app, r.2 = add_app app port_manager ∧
            get_app (add_name request) r.2 = Some app ∧
            name app = add_name request ∧ app_fields_ok app ∧
            (in_sync port_manager → in_sync r.2)) ∧
  (∀ e, r.1 = Uncaught e → e = ValidationError ∧ r.2 = port_manager) ∧
  (∀ status detail, r.1 ≠ HTTPException status detail) ∧
  (∀ p, add_port request = Some p → ¬ port_field_ok p →
     r = (Uncaught ValidationError, port_manager)).
Proof.
  intros r. subst r. unfold add_app_endpoint.
  set (port_range := match add_port_range request with
                     | Some ((_ :: _) as l) => Some l
                     | _ => None
                     end).
  destruct (match add_port_step request with
            | Some d => if decide (size d = 0%nat) then Some None
                        else Some <$> parse_stepped (JObj d)
            | None => Some None
            end) as [port_step |] eqn:Hstep.
  - assert (Hstepok : from_option stepped_ok True port_step).
    { destruct (add_port_step request) as [d |]; [| by injection Hstep as <-].
      destruct (decide (size d = 0%nat)); [by injection Hstep as <- |].
      destruct (parse_stepped (JObj d)) as [ps |] eqn:Hps; [| done].
      injection Hstep as <-. simpl. by eapply parse_stepped_Some. }
    destruct (build_app request port_range port_step) as [app |] eqn:Hbuild.
    + assert (Happ : name app = add_name request ∧ app_fields_ok app).
      { unfold build_app in Hbuild.
        destruct (add_port request) as [p |] eqn:Hp; simpl in Hbuild.
        - destruct (checked port_field_ok p) as [p' |] eqn:Hc; [| done].
          apply checked_Some in Hc as [-> Hok]. simpl in Hbuild.
          destruct port_range as [[| a [| b [| c l]]] |]; simplify_eq/=;
            done.
        - destruct port_range as [[| a [| b [| c l]]] |]; simplify_eq/=;
            done. }
      destruct Happ as [Hname Hok].
      split; [| split; [| split]]; [| done | done |].
      * intros body [= <-]. split; [done |]. exists app.
        split; [done |]. split.
        { rewrite <- Hname. unfold get_app, add_app. simpl.
          apply lookup_insert_eq. }
        split; [done |]. split; [done |]. by apply add_app_in_sync.
      * intros p Hp Hbad. unfold build_app in Hbuild. rewrite Hp in Hbuild.
        unfold checked in Hbuild. by rewrite decide_False in Hbuild.
    + split; [done |]. split; [by intros e [= <-] |]. split; done.
  - split; [done |]. split; [by intros e [= <-] |]. split; done.
Qed.

Lemma add_app_endpoint_registers_valid_witness :
  (add_app_endpoint dedicated_request fresh).1 = Ok ("added", "web") ∧
  ∃ app, get_app "web" (add_app_endpoint dedicated_request fresh).2 = Some app ∧
         app_fields_ok app.
Proof.
  assert (Hok : (add_app_endpoint dedicated_request fresh).1
                = Ok ("added", "web")) by reflexivity.
  split; [exact Hok |].
  destruct (add_app_endpoint_registers_valid dedicated_request fresh)
    as (Hadded & _).
  destruct (Hadded _ Hok) as (_ & app & _ & Hget & _ & Hfields & _).
  exists app. split; [exact Hget | exact Hfields].
Defined.

(** X20. For a name that is not registered, [GET /apps/{name}] and
    [DELETE /apps/{name}] raise the 404 that names it and change
    nothing, and [GET /apps] has no entry for it.  For a registered
    name, the detail shows every candidate port and the list a prefix of
    at most ten of them; the delete succeeds and the name is gone. *)
Theorem app_endpoints_by_name (name : string) port_manager :
  (get_app name port_manager = None →
     get_app_endpoint name port_manager
     = HTTPException 404 ("App '" +:+ name +:+ "' not found") ∧
     remove_app_endpoint name port_manager
     = (HTTPException 404 ("App '" +:+ name +:+ "' not found"),
        port_manager) ∧
     list_apps_endpoint port_manager !! name = None) ∧
  (∀ app, get_app name port_manager = Some app →
     ∃ detail listed,
       get_app_endpoint name port_manager = Ok detail ∧
       list_apps_endpoint port_manager !! name = Some listed ∧
       info_available_ports detail = get_available_ports app ∧
       info_available_ports listed = take 10 (info_available_ports detail) ∧
       (length (info_available_ports listed) ≤ 10)%nat ∧
       (remove_app_endpoint name port_manager).1 = Ok ("removed", name) ∧
       get_app name (remove_app_endpoint name port_manager).2 = None).
Proof.
  unfold get_app_endpoint, remove_app_endpoint, list_apps_endpoint,
    list_apps, remove_app, get_app.
  split.
  - intros Hn. rewrite lookup_fmap, Hn. done.
  - intros app Hn. rewrite lookup_fmap, Hn. simpl.
    eexists _, _. split; [done |]. split; [done |]. simpl.
    split; [done |]. split; [done |].
    split; [rewrite length_take; lia |]. split; [done |].
    apply lookup_delete_eq.
Qed.

Lemma app_endpoints_by_name_witness :
  get_app "ghost" web1_manager = None ∧
  get_app_endpoint "ghost" web1_manager
  = HTTPException 404 "App 'ghost' not found".
Proof.
  assert (Hn : get_app "ghost" web1_manager = None) by reflexivity.
  split; [exact Hn |].
  destruct (app_endpoints_by_name "ghost" web1_manager) as [Habsent _].
  apply (Habsent Hn).
Defined.

(** X22. The two versions of [POST /apps] differ on a [port_range] that
    has neither zero nor two elements: the earlier handler lets a
    [ValidationError] escape and registers nothing; the later one drops
    the range and, when it accepts the request, registers the
    application without a range.  On every other request they register
    the same application and succeed together. *)
Theorem add_app_endpoint_versions request port_manager :
  let old := add_app_endpoint request port_manager in
  let new := add_app_endpoint_core (to_core request) port_manager in
  (∀ l, add_port_range request = Some l →
        length l ≠ 0%nat → length l ≠ 2%nat →
     old = (Uncaught ValidationError, port_manager) ∧
     ∀ body, new.1 = Ok body →
       ∃ app, new.2 = add_app app port_manager ∧ port_range app = None ∧
              port_strategy app = add_port_strategy request) ∧
  ((∀ l, add_port_range request = Some l →
         length l = 0%nat ∨ length l = 2%nat) →
     new.2 = old.2 ∧
     (old.1 = Ok ("added", add_name request) ↔
      new.1 = Ok ("ok", add_name request)) ∧
     (∀ e, old.1 = Uncaught e ↔ new.1 = Uncaught e)).
Proof.
  intros old new. subst old new.
  unfold add_app_endpoint, add_app_endpoint_core, to_core, build_app.
  cbn [core_name core_path core_command core_port_strategy core_port
       core_port_range core_ports core_port_step
       add_name add_path add_command add_port_strategy add_port add_ports].
  rewrite strategy_of_value_value.
  destruct (match add_port_step request with
            | Some d => if decide (size d = 0%nat) then Some None
                        else Some <$> parse_stepped (JObj d)
            | None => Some None
            end) as [port_step |];
    destruct (match add_port request with
              | Some p => Some <$> checked port_field_ok p
              | None => Some None
              end) as [port |];
    destruct (add_port_range request) as [[| x1 [| x2 [| x3 l]]] |];
    simpl.
  all: split;
    [ intros l' Hl' Hlen0 Hlen2;
      first
        [ discriminate Hl'
        | injection Hl' as <-; simpl in *;
          first
            [ done
            | split; [done |];
              first [ done | intros body _; eexists; repeat split ] ] ]
    | intros Hlen;
      first
        [ destruct (Hlen _ eq_refl) as [Hl | Hl]; simpl in Hl; lia
        | repeat split; try done; intros H; discriminate H ] ].
Qed.

Lemma add_app_endpoint_versions_witness :
  add_port_range short_range_request = Some [8000] ∧
  add_app_endpoint short_range_request fresh
  = (Uncaught ValidationError, fresh) ∧
  (add_app_endpoint_core (to_core short_range_request) fresh).1
  = Ok ("ok", "web") ∧
  ∃ app, (add_app_endpoint_core (to_core short_range_request) fresh).2
         = add_app app fresh ∧ port_range app = None.
Proof.
  assert (Hl : add_port_range short_range_request = Some [8000])
    by reflexivity.
  assert (Hnew : (add_app_endpoint_core (to_core short_range_request)
                    fresh).1 = Ok ("ok", "web")) by reflexivity.
  destruct (add_app_endpoint_versions short_range_request fresh)
    as [Hodd _].
  destruct (Hodd [8000] Hl) as [Hold Hreg]; [done | done |].
  destruct (Hreg _ Hnew) as (app & Happ & Hrange & _).
  split; [exact Hl |]. split; [exact Hold |]. split; [exact Hnew |].
  exists app. split; [exact Happ | exact Hrange].
Defined.

End Handlers.

(** ** What a call leaves alone *)

Section OtherInstances.

Implicit Types (w : world) (self : PortManager).

Lemma _get_ports_for_app_config self self' app :
  config self' = config self →
  _get_ports_for_app self' app = _get_ports_for_app self app.
Proof.
  intros Hcfg. unfold _get_ports_for_app, default_range_ports.
  by rewrite Hcfg.
Qed.

(** X21. [allocate_port] writes the registry only under its own key:
    whatever the outcome, every entry under another key is after the call
    what it was before, and no key but its own is added; the registry
    changes its size by at most one.  Of the entries under other keys
    the call reads only the ports they hold: on two objects with the same
    configuration, the same entry under the key and the same ports held
    under other keys, it has the same result. *)
Theorem allocate_port_writes_own_key w app oid pid self :
  let key := instance_key app (str_or oid (uuid8 w)) in
  let after := active_instances (allocate_port w app oid pid self).2 in
  let held s p := ∃ k inst, k ≠ key ∧ active_instances s !! k = Some inst ∧
                            inst_port inst = p in
  (∀ k, k ≠ key → after !! k = active_instances self !! k) ∧
  (size after ≤ S (size (active_instances self)))%nat ∧
  (size (active_instances self) ≤ S (size after))%nat ∧
  (∀ self',
     config self' = config self →
     active_instances self' !! key = active_instances self !! key →
     (∀ p, held self' p ↔ held self p) →
     (allocate_port w app oid pid self').1
     = (allocate_port w app oid pid self).1).
Proof.
  intros key after held.
  assert (Hdel : (size (delete key (active_instances self))
                  ≤ size (active_instances self))%nat ∧
                 (size (active_instances self)
                  ≤ S (size (delete key (active_instances self))))%nat).
  { rewrite map_size_delete.
    destruct (active_instances self !! key); simpl; unfold id; lia. }
  split; [intros k Hne; by apply allocate_port_other_key |].
  subst after.
  destruct (live_binding w self key) as [[existing |] | e0] eqn:Hlive.
  - rewrite (allocate_port_live _ _ _ _ _ _ Hlive). simpl.
    split; [lia |]. split; [lia |].
    intros self' Hcfg Hkey Hheld.
    assert (Hlive' : live_binding w self' key = Return (Some existing))
      by (unfold live_binding in *; by rewrite Hkey).
    by rewrite (allocate_port_live _ _ _ _ _ _ Hlive').
  - rewrite (allocate_port_scan _ _ _ _ _ Hlive). fold key.
    split; [| split].
    + destruct (first_free_port _ _ _) as [[p |] | e]; simpl; [| lia | lia].
      rewrite map_size_insert, lookup_delete_eq. simpl. lia.
    + destruct (first_free_port _ _ _) as [[p |] | e]; simpl; [| lia | lia].
      rewrite map_size_insert, lookup_delete_eq. simpl. lia.
    + intros self' Hcfg Hkey Hheld.
      assert (Hlive' : live_binding w self' key = Return None)
        by (unfold live_binding in *; by rewrite Hkey).
      rewrite (allocate_port_scan _ _ _ _ _ Hlive'). fold key.
      assert (Hused : _get_used_ports (scan_base self' key)
                      = _get_used_ports (scan_base self key)).
      { apply set_eq. intros p.
        rewrite !elem_of_used_ports_scan_base. apply Hheld. }
      rewrite Hused, (_get_ports_for_app_config self self' app Hcfg).
      by destruct (first_free_port _ _ _) as [[p |] | e].
  - destruct (allocate_port_probe_raise w app oid pid self e0 Hlive)
      as [-> Hcall].
    rewrite Hcall. simpl. split; [lia |]. split; [lia |].
    intros self' Hcfg Hkey Hheld.
    assert (Hlive' : live_binding w self' key = Raise PidError)
      by (unfold live_binding in *; by rewrite Hkey).
    by destruct (allocate_port_probe_raise w app oid pid self' PidError Hlive')
      as [_ ->].
Qed.

Lemma allocate_port_writes_own_key_witness :
  let moved := mkPortManager default_config
                 {[ instance_key "api" "z"
                    := mkInstance "api" "z" 8100 100
                                  "2024-02-02T00:00:00+00:00" ]} None in
  let held s p := ∃ k inst, k ≠ instance_key "web" "b" ∧
                            active_instances s !! k = Some inst ∧
                            inst_port inst = p in
  config moved = config one_instance ∧
  active_instances moved !! instance_key "web" "b"
  = active_instances one_instance !! instance_key "web" "b" ∧
  (∀ p, held moved p ↔ held one_instance p) ∧
  (allocate_port w_100 "web" (Some "b") 100 moved).1
  = (allocate_port w_100 "web" (Some "b") 100 one_instance).1.
Proof.
  intros moved held.
  assert (Hcfg : config moved = config one_instance) by reflexivity.
  assert (Hkey : active_instances moved !! instance_key "web" "b"
                 = active_instances one_instance !! instance_key "web" "b")
    by reflexivity.
  assert (Hheld : ∀ p, held moved p ↔ held one_instance p).
  { intros p. split.
    - intros (k & inst & _ & Hk & Hp).
      unfold moved in Hk. cbn [active_instances] in Hk.
      apply lookup_singleton_Some in Hk as [_ <-].
      exists (instance_key "web" "a"), inst_a. split; [done |].
      split; [reflexivity | exact Hp].
    - intros (k & inst & _ & Hk & Hp).
      unfold one_instance in Hk. cbn [active_instances] in Hk.
      apply lookup_singleton_Some in Hk as [_ <-].
      exists (instance_key "api" "z"),
        (mkInstance "api" "z" 8100 100 "2024-02-02T00:00:00+00:00").
      split; [done |]. split; [reflexivity | exact Hp]. }
  split; [exact Hcfg |]. split; [exact Hkey |]. split; [exact Hheld |].
  destruct (allocate_port_writes_own_key w_100 "web" (Some "b") 100
              one_instance) as (_ & _ & _ & Hsame).
  apply (Hsame moved Hcfg Hkey Hheld).
Defined.

End OtherInstances.
